(** * filterdir: the access recorder and the filtering overlay

    A shallow embedding of [filterdir.go].  Go strings are byte sequences and
    are modelled by [string]; the include map ([map[string]struct{}], Go's
    idiom for a set) is a [gset string]; the recorder's [map[string]bool] is a
    [gmap string bool] read with Go's zero value for a missing key; slices
    live in an explicit store of backing arrays. *)

From Stdlib Require Import ZArith Ascii String.
From stdpp Require Import base tactics option list sorting gmap strings.


(** ** Strings *)

Module GoStrings.

(** [strings.Split(s, "/")]: the pieces of [s] between the separators; a
    string without separator gives the one piece [s], also when [s] is
    empty. *)
Fixpoint Split (s : string) : list string :=
  match s with
  | EmptyString => [""]
  | String c s' =>
      if Ascii.eqb c "/"%char then "" :: Split s'
      else match Split s' with
           | [] => [String c ""]
           | d :: ds => String c d :: ds
           end
  end.

(** [strings.Join(elems, "/")]. *)
Fixpoint Join (elems : list string) : string :=
  match elems with
  | [] => ""
  | [e] => e
  | e :: es => e +:+ "/" +:+ Join es
  end.

(** The slice expression [s[lo:hi]] on a string: a run-time panic
    ([None]) unless [0 <= lo <= hi <= len(s)]. *)
Definition slice (s : string) (lo hi : Z) : option string :=
  if bool_decide (0 <= lo <= hi /\ hi <= Z.of_nat (String.length s))%Z
  then Some (String.substring (Z.to_nat lo) (Z.to_nat (hi - lo)) s)
  else None.

(** [len(s)] as a Go [int]. *)
Definition len (s : string) : Z := Z.of_nat (String.length s).

(** A byte of the string is the separator. *)
Fixpoint has_sep (s : string) : bool :=
  match s with
  | EmptyString => false
  | String c s' => Ascii.eqb c "/"%char || has_sep s'
  end.

End GoStrings.

Import GoStrings.

(** ** The inclusion set *)

(** The two nested loops of [loadIncludeList], on the value of
    [f.IncludeList]: the result is the map stored in [f.include]. *)
Definition loadIncludeList (IncludeList : list string) : gset string :=
  foldl (fun include file =>
           let include := {[ file ]} ∪ include in
           let dirs := Split file in
           foldl (fun include i => {[ Join (take i dirs) ]} ∪ include)
                 include (seq 2 (length dirs - 2)))
        {[ "/" ]} IncludeList.

(** The spec's words: [p] is a strict ancestor directory of [file] when it is
    a prefix of [file] cut at a separator, the empty prefix excluded. *)
Definition strict_ancestor (p file : string) : Prop :=
  p <> "" /\ exists rest, file = p +:+ "/" +:+ rest.

(** A path is absolute when it starts at the root. *)
Definition absolute (p : string) : Prop := exists rest, p = "/" +:+ rest.


(** ** Errors, file metadata and the resource store *)

(** Go [error] values, as far as the overlay meets them: the sentinels of
    package [os] and [io], the [*os.PathError] that wraps a cause, and the
    errors made by [errors.New].  A nil error is [None]. *)
Inductive error : Type :=
| ErrNotExist
| ErrPermission
| EOF
| PathError (op path : string) (err : error)
| errorString (s : string).

(** [os.IsNotExist]: the not-found condition, seen through a path error. *)
Fixpoint IsNotExist (e : error) : bool :=
  match e with
  | ErrNotExist => true
  | PathError _ _ err => IsNotExist err
  | _ => false
  end.

(** [os.FileInfo], as far as the overlay reads it. *)
Record FileInfo : Type := mkFileInfo { Name : string; IsDir : bool }.

(** The resource store behind [http.Dir]: opaque to the overlay.  Its state
    (what is on disk, which files are open and how far they were read) is
    threaded through the two operations the overlay calls; an [HttpFile] is
    the reference that an [http.File] interface value holds. *)
Class ResourceStore : Type := {
  store : Type;
  HttpFile : Type;
  (** [http.Dir(dir).Open(name)] *)
  Dir_Open : string -> string -> store -> (HttpFile + error) * store;
  (** [file.Readdir(count)] on the store's own file *)
  File_Readdir : HttpFile -> Z -> store -> (list FileInfo * option error) * store
}.

(** A store given by a table from directory and name to a listing or a
    failure.  Its state is the table of open files, each with the entries
    not read yet; [Readdir] follows [os.File.Readdir]: with [count <= 0] all
    remaining entries and no error, with [count > 0] at most [count] entries
    and [io.EOF] once nothing is left. *)
Definition table_Open (table : string -> string -> list FileInfo + error)
    (dir name : string) (open : list (list FileInfo))
  : (nat + error) * list (list FileInfo) :=
  match table dir name with
  | inl entries => (inl (length open), open ++ [entries])
  | inr err => (inr err, open)
  end.

Definition table_Readdir (h : nat) (count : Z) (open : list (list FileInfo))
  : (list FileInfo * option error) * list (list FileInfo) :=
  match open !! h with
  | None => (([], Some (errorString "file already closed")), open)
  | Some rest =>
      if bool_decide (count <= 0)%Z then ((rest, None), <[h := []]> open)
      else match rest with
           | [] => (([], Some EOF), open)
           | _ => ((take (Z.to_nat count) rest, None),
                   <[h := drop (Z.to_nat count) rest]> open)
           end
  end.

Definition TableStore (table : string -> string -> list FileInfo + error)
  : ResourceStore :=
  {| store := list (list FileInfo);
     HttpFile := nat;
     Dir_Open := table_Open table;
     File_Readdir := table_Readdir |}.

(** A small tree: the root holds the directories [css] and [img], and
    [secret], which the store refuses to open.  Like [http.Dir], the table
    cleans the name before it looks it up. *)
Definition gui_tree (dir name : string) : list FileInfo + error :=
  if bool_decide (name ∈ [""; "/"]) then inl [mkFileInfo "css" true; mkFileInfo "img" true]
  else if bool_decide (name ∈ ["/css"; "/css/"; "/css//"]) then inl [mkFileInfo "app.css" false]
  else if bool_decide (name = "/img") then inl [mkFileInfo "logo.png" false]
  else if bool_decide (name ∈ ["/css/app.css"; "/img/logo.png"]) then inl []
  else if bool_decide (name = "/secret")
       then inr (PathError "open" (dir +:+ name) ErrPermission)
  else inr (PathError "open" (dir +:+ name) ErrNotExist).

(** ** Options *)

(** [Options]: the options for code generation. *)
Record Options : Type := mkOptions {
  Filename : string;
  PackageName : string;
  VfsgenBuildTags : string;
  VariableName : string;
  VariableComment : string;
  ListFileName : string;
  ListFileBuildTags : string
}.

(** [vfsgen.Options], the record handed to the code generator. *)
Record vfsgen_Options : Type := mk_vfsgen_Options {
  vfsgen_Filename : string;
  vfsgen_PackageName : string;
  vfsgen_BuildTags : string;
  vfsgen_VariableName : string;
  vfsgen_VariableComment : string
}.

(** The assignments [opt.X = v] of [fillMissing]. *)
Definition set_PackageName (v : string) (opt : Options) : Options :=
  mkOptions (Filename opt) v (VfsgenBuildTags opt) (VariableName opt)
            (VariableComment opt) (ListFileName opt) (ListFileBuildTags opt).
Definition set_VariableName (v : string) (opt : Options) : Options :=
  mkOptions (Filename opt) (PackageName opt) (VfsgenBuildTags opt) v
            (VariableComment opt) (ListFileName opt) (ListFileBuildTags opt).
Definition set_ListFileName (v : string) (opt : Options) : Options :=
  mkOptions (Filename opt) (PackageName opt) (VfsgenBuildTags opt) (VariableName opt)
            (VariableComment opt) v (ListFileBuildTags opt).
Definition set_VfsgenBuildTags (v : string) (opt : Options) : Options :=
  mkOptions (Filename opt) (PackageName opt) v (VariableName opt)
            (VariableComment opt) (ListFileName opt) (ListFileBuildTags opt).
Definition set_ListFileBuildTags (v : string) (opt : Options) : Options :=
  mkOptions (Filename opt) (PackageName opt) (VfsgenBuildTags opt) (VariableName opt)
            (VariableComment opt) (ListFileName opt) v.

(** [fillMissing]: five tests in sequence, each on the options as the tests
    before it left them. *)
Definition fillMissing (opt : Options) : Options :=
  let opt := if String.eqb (PackageName opt) "" then set_PackageName "main" opt else opt in
  let opt := if String.eqb (VariableName opt) "" then set_VariableName "assets" opt else opt in
  let opt := if String.eqb (ListFileName opt) "" then set_ListFileName "assets_list.go" opt else opt in
  let opt := if String.eqb (VfsgenBuildTags opt) "" then set_VfsgenBuildTags "!dev" opt else opt in
  let opt := if String.eqb (ListFileBuildTags opt) "" then set_ListFileBuildTags "dev" opt else opt in
  opt.

(** The value an option has after [fillMissing]: the default when it was
    left empty, the caller's value otherwise. *)
Definition or_default (v default : string) : string :=
  if String.eqb v "" then default else v.

(** The spec's words: no option is left missing. *)
Definition all_defaulted (opt : Options) : Prop :=
  Filename opt <> "" /\ PackageName opt <> "" /\ VfsgenBuildTags opt <> "" /\
  VariableName opt <> "" /\ VariableComment opt <> "" /\
  ListFileName opt <> "" /\ ListFileBuildTags opt <> "".

(** ** The filtering overlay *)

(** [FilterDir].  The two [sync.Once] are the flags that say whether they
    have run; [requests] is the content of the buffered channel, oldest
    first; a nil [include] map reads like the empty one. *)
Record FilterDir : Type := mkFilterDir {
  loadOnce : bool;
  startOnce : bool;
  dir : string;
  options : Options;
  requests : list string;
  include : gset string;
  FilterMode : bool;
  IncludeList : list string
}.

(** [New]. *)
Definition New (dir : string) (opt : Options) : FilterDir :=
  mkFilterDir false false dir (fillMissing opt) [] ∅ false [].

(** [FilterDir.Options]. *)
Definition FilterDir_Options (f : FilterDir) : vfsgen_Options :=
  {| vfsgen_Filename := Filename (options f);
     vfsgen_PackageName := PackageName (options f);
     vfsgen_BuildTags := VfsgenBuildTags (options f);
     vfsgen_VariableName := VariableName (options f);
     vfsgen_VariableComment := VariableComment (options f) |}.

(** [f.startOnce.Do(func() { go f.startGUI() })]: only the flag is kept, the
    console it starts is a collaborator. *)
Definition startOnce_Do (f : FilterDir) : FilterDir :=
  mkFilterDir (loadOnce f) true (dir f) (options f) (requests f) (include f)
              (FilterMode f) (IncludeList f).

(** [f.requests <- name]. *)
Definition send_request (name : string) (f : FilterDir) : FilterDir :=
  mkFilterDir (loadOnce f) (startOnce f) (dir f) (options f) (requests f ++ [name])
              (include f) (FilterMode f) (IncludeList f).

(** [f.loadOnce.Do(f.loadIncludeList)]. *)
Definition loadOnce_Do (f : FilterDir) : FilterDir :=
  if loadOnce f then f
  else mkFilterDir true (startOnce f) (dir f) (options f) (requests f)
                   (loadIncludeList (IncludeList f)) (FilterMode f) (IncludeList f).

(** The inclusion set that a filtered [Open] consults. *)
Definition InclusionSet (f : FilterDir) : gset string := include (loadOnce_Do f).

(** What a Go function does: it returns or it panics. *)
Inductive outcome (A : Type) : Type :=
| Return (a : A)
| Panic.
Arguments Return {A} a.
Arguments Panic {A}.

Section Overlay.
Context `{RS : ResourceStore}.

(** [File]: the store's file with the name it was opened under and the
    include map (the map of the [FilterDir], which nothing writes once it is
    loaded). *)
Record File : Type := mkFile {
  File_File : HttpFile;
  File_name : string;
  File_include : gset string
}.

(** The [http.File] that [Open] returns: the store's file as it is, or the
    filtering [*File] around it. *)
Inductive opened : Type :=
| Plain (file : HttpFile)
| Filtered (file : File).

(** [FilterDir.Open]: the returned pair, the [FilterDir] and the store
    afterwards. *)
Definition Open (f : FilterDir) (name : string) (σ : store)
  : (opened + error) * FilterDir * store :=
  match Dir_Open (dir f) name σ with
  | (inr err, σ) => (inr err, f, σ)
  | (inl file, σ) =>
      if bool_decide (FilterMode f = false) then
        let f := startOnce_Do f in
        let f := send_request name f in
        (inl (Plain file), f, σ)
      else
        let f := loadOnce_Do f in
        if bool_decide (name ∈ include f)
        then (inl (Filtered (mkFile file name (include f))), f, σ)
        else (inr ErrNotExist, f, σ)
  end.

(** [File.Readdir]: the returned pair, the [File] and the store
    afterwards; [Panic] when a slice expression is out of range. *)
Definition Readdir (f : File) (count : Z) (σ : store)
  : outcome ((list FileInfo * option error) * File * store) :=
  match slice (File_name f) (len (File_name f) - 1) (len (File_name f)) with
  | None => Panic
  | Some last =>
      match (if String.eqb last "/"
             then slice (File_name f) 0 (len (File_name f) - 1)
             else Some (File_name f)) with
      | None => Panic
      | Some name =>
          let f := mkFile (File_File f) name (File_include f) in
          let '((info, err), σ) := File_Readdir (File_File f) count σ in
          let newInfo :=
            foldl (fun newInfo i =>
                     if bool_decide (File_name f +:+ "/" +:+ Name i ∈ File_include f)
                     then newInfo ++ [i] else newInfo)
                  [] info in
          Return ((newInfo, err), f, σ)
      end
  end.

End Overlay.

(** The spec's words for the listing filter: the parent path without one
    trailing separator. *)
Fixpoint strip_trailing (parentPath : string) : string :=
  match parentPath with
  | EmptyString => ""
  | String c EmptyString => if Ascii.eqb c "/"%char then "" else parentPath
  | String c rest => String c (strip_trailing rest)
  end.

Definition full_path (parentPath : string) (i : FileInfo) : string :=
  strip_trailing parentPath +:+ "/" +:+ Name i.

(** The entries a listing may show under [parentPath]. *)
Definition visible (include : gset string) (parentPath : string) (i : FileInfo) : bool :=
  bool_decide (full_path parentPath i ∈ include).

(** The spec's words: the path ends with a separator. *)
Definition has_trailing_sep (path : string) : Prop := exists s, path = s +:+ "/".

(** The store of the examples, and the overlay of
    [f := New("gui", Options{})] after [f.FilterMode = true] and
    [f.IncludeList = l]. *)
Definition gui : ResourceStore := TableStore gui_tree.

Definition filtering (l : list string) : FilterDir :=
  let f := New "gui" (mkOptions "" "" "" "" "" "" "") in
  mkFilterDir (loadOnce f) (startOnce f) (dir f) (options f) (requests f) (include f)
              true l.

(** ** The access recorder *)

Module Recorder.

(** A [[]string] value: the backing array it points to and its length; the
    capacity is the length of the backing array. *)
Record Slice : Type := mkSlice { ptr : nat; length_ : nat }.

(** The goroutine's variables, and the arrays that slices point to.
    [next] is the first address not yet handed out; the addresses start
    after [zerobase]. *)
Record state : Type := mkState {
  heap : gmap nat (list string);
  next : nat;
  includeList : Slice;
  includeMap : gmap string bool;
  changed : bool
}.

(** The backing array of a slice. *)
Definition array (h : gmap nat (list string)) (s : Slice) : list string :=
  default [] (h !! ptr s).

(** The elements of a slice. *)
Definition elems (h : gmap nat (list string)) (s : Slice) : list string :=
  take (length_ s) (array h s).

(** The address that the run time gives to every allocation of size zero
    ([runtime.zerobase]).  It is never handed out for an array that has
    elements. *)
Definition zerobase : nat := 0.

(** [make([]string, n, c)]: a fresh array of [c] empty strings.  With
    [c = 0] nothing is allocated: the slice points to [zerobase], as every
    slice made with no capacity does. *)
Definition make (n c : nat) (h : gmap nat (list string)) (nxt : nat)
  : Slice * gmap nat (list string) * nat :=
  if c =? 0 then (mkSlice zerobase n, h, nxt)
  else (mkSlice nxt n, <[nxt := replicate c ""]> h, S nxt).

(** The capacity [append] asks for when the array is full: twice the old
    one below 256 elements, a quarter more beyond, and never less than what
    is needed (the run time rounds this up to a size class, which no
    property here depends on). *)
Definition growcap (old needed : nat) : nat :=
  Nat.max needed (if old <? 256 then 2 * old else old + (old + 768) / 4).

(** [append(s, r)]: in place while the capacity lasts, else into a fresh
    array holding the copied elements. *)
Definition append (s : Slice) (r : string) (h : gmap nat (list string)) (nxt : nat)
  : Slice * gmap nat (list string) * nat :=
  let arr := array h s in
  if length_ s <? length arr
  then (mkSlice (ptr s) (S (length_ s)), <[ptr s := <[length_ s := r]> arr]> h, nxt)
  else
    let c := growcap (length arr) (S (length_ s)) in
    (mkSlice nxt (S (length_ s)),
     <[nxt := take (length_ s) arr ++ [r] ++ replicate (c - S (length_ s)) ""]> h,
     S nxt).

(** [sort.StringSlice(s).Sort()]: the elements of the slice are put, in
    place, in ascending order of [<] on strings, that is byte-wise
    lexicographic order.  That order is total and antisymmetric, so the
    sorted arrangement of given elements is unique and the algorithm does
    not matter; merge sort stands for it. *)
Definition Sort (s : Slice) (h : gmap nat (list string)) : gmap nat (list string) :=
  let arr := array h s in
  <[ptr s := merge_sort String.le (take (length_ s) arr) ++ drop (length_ s) arr]> h.

(** [copy(dst, src)]: as many elements as both slices have. *)
Definition copy (dst src : Slice) (h : gmap nat (list string)) : gmap nat (list string) :=
  let n := Nat.min (length_ dst) (length_ src) in
  <[ptr dst := take n (elems h src) ++ drop n (array h dst)]> h.

(** What the goroutine's [select] can receive: a request from [requests],
    a query on [qchan], a reader taking [changed] from [cchan], a clear. *)
Inductive msg : Type :=
| Request (r : string)
| Query
| TakeChanged
| ClearMsg.

(** What it sends back: the copy on [achan], the flag on [cchan]. *)
Inductive reply : Type :=
| NoReply
| Answer (sortedList : Slice)
| ChangedIs (b : bool).

(** The state [processRequests] starts the goroutine in.  The function does
    not read its argument [savedIncludeList]; the channel [requests] is
    where the [Request] messages come from. *)
Definition processRequests : state :=
  let '(includeList, h, nxt) := make 0 100 ∅ (S zerobase) in
  mkState h nxt includeList ∅ false.

(** One turn of the [for { select { ... } }] loop. *)
Definition step (st : state) (m : msg) : state * reply :=
  match m with
  | Request r =>
      if bool_decide (default false (includeMap st !! r) = false) then
        let includeMap := <[r := true]> (includeMap st) in
        let '(includeList, h, nxt) := append (includeList st) r (heap st) (next st) in
        (mkState h nxt includeList includeMap true, NoReply)
      else (st, NoReply)
  | Query =>
      let '(h, changed) :=
        if changed st then (Sort (includeList st) (heap st), false)
        else (heap st, changed st) in
      let '(sortedList, h, nxt) := make (length_ (includeList st)) (length_ (includeList st)) h (next st) in
      let h := copy sortedList (includeList st) h in
      (mkState h nxt (includeList st) (includeMap st) changed, Answer sortedList)
  | TakeChanged => (st, ChangedIs (changed st))
  | ClearMsg =>
      let '(includeList, h, nxt) := make 0 100 (heap st) (next st) in
      (mkState h nxt includeList ∅ true, NoReply)
  end.

(** The loop over the messages in the order the goroutine receives them. *)
Definition run (st : state) (ms : list msg) : state :=
  foldl (fun st m => fst (step st m)) st ms.

(** The three methods of [sortedList], each one exchange with the
    goroutine.  [List] gives the slice it receives, here together with the
    elements the slice has at that moment. *)
Definition sortedList_List (st : state) : list string * Slice * state :=
  match step st Query with
  | (st', Answer a) => (elems (heap st') a, a, st')
  | (st', _) => ([], mkSlice 0 0, st')
  end.

Definition sortedList_Changed (st : state) : bool * state :=
  (changed st, fst (step st TakeChanged)).

Definition sortedList_Clear (st : state) : state := fst (step st ClearMsg).

(** The paths recorded and not cleared since: what the requests among [ms]
    after the last clear ask for. *)
Definition recorded (ms : list msg) : list string :=
  foldl (fun acc m =>
           match m with
           | Request r => acc ++ [r]
           | ClearMsg => []
           | _ => acc
           end) [] ms.

(** The requests for the paths of a list, in order. *)
Definition Record_calls (paths : list string) : list msg := Request <$> paths.

(** The elements of the goroutine's [includeList]. *)
Definition contents (st : state) : list string := elems (heap st) (includeList st).

(** The goroutine's slice points into allocated memory and fits its
    array. *)
Definition wf (st : state) : Prop :=
  ptr (includeList st) < next st
  /\ length_ (includeList st) <= length (array (heap st) (includeList st)).

(** What holds of the goroutine's variables after any messages: the slice
    has no duplicates and holds what the map holds, which is what was
    recorded since the last clear, and it is sorted whenever the flag is
    down. *)
Definition Inv (ms : list msg) (st : state) : Prop :=
  NoDup (contents st)
  /\ (forall r, default false (includeMap st !! r) = true <-> r ∈ contents st)
  /\ (changed st = false -> StronglySorted String.le (contents st))
  /\ (forall r, r ∈ contents st <-> r ∈ recorded ms).

(** A message is not a request, or not a query. *)
Definition is_Request (m : msg) : bool := if m is Request _ then true else false.
Definition is_Query (m : msg) : bool := if m is Query then true else false.

(** A message that leaves the flag down: a query, a reading of the flag,
    or a request for a path that the map of [st] already holds. *)
Definition quiet (st : state) (m : msg) : Prop :=
  m = Query \/ m = TakeChanged
  \/ exists r, m = Request r /\ default false (includeMap st !! r) = true.

End Recorder.

(** ** Using the overlay *)

(** The assignments [f.IncludeList = l] and [f.FilterMode = b] to the two
    exported fields, as a client of the package, [saveList] and
    [generateAssets] make them. *)
Definition set_IncludeList (l : list string) (f : FilterDir) : FilterDir :=
  mkFilterDir (loadOnce f) (startOnce f) (dir f) (options f) (requests f) (include f)
              (FilterMode f) l.

Definition set_FilterMode (b : bool) (f : FilterDir) : FilterDir :=
  mkFilterDir (loadOnce f) (startOnce f) (dir f) (options f) (requests f) (include f)
              b (IncludeList f).

(** What can be done to a [FilterDir] from outside: open a name, assign
    the include list, assign the mode. *)
Inductive use : Type :=
| Use_Open (name : string)
| Use_IncludeList (l : list string)
| Use_FilterMode (b : bool).

Section Uses.
Context `{RS : ResourceStore}.

Definition apply_use (fσ : FilterDir * store) (u : use) : FilterDir * store :=
  match u with
  | Use_Open name =>
      let '(_, f, σ) := Open (fst fσ) name (snd fσ) in (f, σ)
  | Use_IncludeList l => (set_IncludeList l (fst fσ), snd fσ)
  | Use_FilterMode b => (set_FilterMode b (fst fσ), snd fσ)
  end.

(** A sequence of uses, in order. *)
Definition apply_uses (f : FilterDir) (σ : store) (us : list use) : FilterDir * store :=
  foldl apply_use (f, σ) us.

(** The names among [names] that the store opens, each [Open] on the store
    as the ones before left it. *)
Fixpoint opened_names (d : string) (names : list string) (σ : store) : list string :=
  match names with
  | [] => []
  | name :: names =>
      match Dir_Open d name σ with
      | (inl _, σ) => name :: opened_names d names σ
      | (inr _, σ) => opened_names d names σ
      end
  end.

End Uses.

(** The spec's words: [p] is a prefix of [file]. *)
Definition is_prefix (p file : string) : Prop := exists rest, file = p +:+ rest.

(** ** Saving the list *)

(** The bytes that the template text holds besides printable ones: the line
    feed, the tab and the double quote. *)
Definition LF : string := String "010"%char "".
Definition TAB : string := String "009"%char "".
Definition QUOTE : string := String "034"%char "".

(** The strings of a list, one after the other. *)
Definition concat_str (chunks : list string) : string := foldr String.append "" chunks.

(** The disk that [saveList] writes to: the content of each file, the
    number of operations done so far, and the files closed so far. *)
Record disk : Type := mkDisk {
  files : gmap string string;
  clock : nat;
  closed : list string
}.

(** What a file holds; a file that does not exist holds nothing. *)
Definition content (lf : string) (d : disk) : string := default "" (files d !! lf).

(** The disk [d'] is the disk [d] with [w] written behind the content of
    [lf]: no other file is touched and nothing is closed. *)
Definition extends (lf : string) (d d' : disk) (w : string) : Prop :=
  files d' !! lf = Some (content lf d +:+ w)
  /\ closed d' = closed d
  /\ forall other, other <> lf -> files d' !! other = files d !! other.

Section SaveList.

(** What can go wrong on the disk: [fault n] says whether the [n]-th
    operation fails, with which error and, for a write, after how many
    bytes. *)
Variable fault : nat -> option (error * nat).

(** The escaper that [html/template] puts on each action of the
    templates. *)
Variable escape : string -> string.

(** A disk on which the operations from [k] on do not fail. *)
Definition sound_from (k : nat) : Prop := forall n, k <= n -> fault n = None.

(** [os.Create(name)]: the file is created empty, or truncated. *)
Definition os_Create (name : string) (d : disk) : (string + error) * disk :=
  match fault (clock d) with
  | Some (err, _) => (inr err, mkDisk (files d) (S (clock d)) (closed d))
  | None => (inl name, mkDisk (<[name := ""]> (files d)) (S (clock d)) (closed d))
  end.

(** [lf.Write(chunk)]: the bytes go behind what the file holds. *)
Definition file_Write (lf chunk : string) (d : disk) : option error * disk :=
  let old := default "" (files d !! lf) in
  match fault (clock d) with
  | Some (err, n) =>
      (Some err,
       mkDisk (<[lf := old +:+ String.substring 0 n chunk]> (files d)) (S (clock d)) (closed d))
  | None => (None, mkDisk (<[lf := old +:+ chunk]> (files d)) (S (clock d)) (closed d))
  end.

(** [lf.Close()]. *)
Definition file_Close (lf : string) (d : disk) : disk :=
  mkDisk (files d) (clock d) (lf :: closed d).

(** The template ["Header"] on the options: its text and actions in
    order, each one write; the [with] block is left out when
    [ListFileBuildTags] is empty. *)
Definition Header (opt : Options) : list string :=
  ["// Code generated by FilterDir" +:+ LF +:+ LF]
  ++ (if String.eqb (ListFileBuildTags opt) "" then []
      else ["// +build "; escape (ListFileBuildTags opt); LF +:+ LF])
  ++ ["package "; escape (PackageName opt);
      LF +:+ LF +:+ "func init() {" +:+ LF +:+ TAB;
      escape (VariableName opt);
      ".IncludeList = []string{" +:+ LF].

(** The template ["Files"] on one path. *)
Definition Files (l : string) : list string :=
  [TAB +:+ TAB +:+ QUOTE; escape l; QUOTE +:+ "," +:+ LF].

(** The template ["Footer"]. *)
Definition Footer : list string := [TAB +:+ "}" +:+ LF +:+ "}" +:+ LF].

(** [t.ExecuteTemplate(lf, name, data)]: the writes of the template in
    order, up to the first one that fails. *)
Fixpoint ExecuteTemplate (lf : string) (nodes : list string) (d : disk)
  : option error * disk :=
  match nodes with
  | [] => (None, d)
  | chunk :: nodes =>
      match file_Write lf chunk d with
      | (Some err, d) => (Some err, d)
      | (None, d) => ExecuteTemplate lf nodes d
      end
  end.

(** The loop of [saveList] over the list. *)
Fixpoint saveList_loop (lf : string) (list : list string) (d : disk)
  : option error * disk :=
  match list with
  | [] => (None, d)
  | l :: list =>
      match ExecuteTemplate lf (Files l) d with
      | (Some err, d) => (Some err, d)
      | (None, d) => saveList_loop lf list d
      end
  end.

(** [saveList]: the returned error, the [FilterDir] and the disk
    afterwards; the deferred [Close] runs on every return that follows
    the creation of the file. *)
Definition saveList (f : FilterDir) (list : list string) (d : disk)
  : option error * FilterDir * disk :=
  let f := set_IncludeList list f in
  match os_Create (ListFileName (options f)) d with
  | (inr err, d) => (Some err, f, d)
  | (inl lf, d) =>
      match ExecuteTemplate lf (Header (options f)) d with
      | (Some err, d) => (Some err, f, file_Close lf d)
      | (None, d) =>
          match saveList_loop lf list d with
          | (Some err, d) => (Some err, f, file_Close lf d)
          | (None, d) =>
              match ExecuteTemplate lf Footer d with
              | (Some err, d) => (Some err, f, file_Close lf d)
              | (None, d) => (None, f, file_Close lf d)
              end
          end
      end
  end.

(** The text of a complete list file. *)
Definition list_file (opt : Options) (list : list string) : string :=
  concat_str (Header opt ++ flat_map Files list ++ Footer).

End SaveList.

(** A disk on which nothing fails. *)
Definition no_fault : nat -> option (error * nat) := fun _ => None.

(** ** The recorder behind its channel *)

Module Scheduling.
Import Recorder.

(** The goroutine of [processRequests] together with the buffered channel
    [requests] that it reads: what was sent and not yet received, oldest
    first. *)
Record system : Type := mkSystem {
  requests_chan : list string;
  goroutine : state
}.

(** What can happen next.  A caller's [f.requests <- r] completes, which
    needs room in the buffer of 100; or the [select] of the goroutine takes
    one of its four cases: a request from the channel, which needs one to be
    there, a query, a reader of the flag, a clear.  When several cases are
    ready the [select] takes any of them. *)
Inductive turn : Type :=
| Send (r : string)
| Receive
| Take_Query
| Take_Changed
| Take_Clear.

Definition enabled (s : system) (t : turn) : bool :=
  match t with
  | Send _ => length (requests_chan s) <? 100
  | Receive => if requests_chan s is [] then false else true
  | _ => true
  end.

(** The message the goroutine handles in a turn, if any. *)
Definition handled (s : system) (t : turn) : option msg :=
  match t with
  | Send _ => None
  | Receive => if requests_chan s is r :: _ then Some (Request r) else None
  | Take_Query => Some Query
  | Take_Changed => Some TakeChanged
  | Take_Clear => Some ClearMsg
  end.

Definition turn_step (s : system) (t : turn) : system :=
  match t with
  | Send r => mkSystem (requests_chan s ++ [r]) (goroutine s)
  | Receive =>
      match requests_chan s with
      | r :: rest => mkSystem rest (fst (step (goroutine s) (Request r)))
      | [] => s
      end
  | Take_Query => mkSystem (requests_chan s) (fst (step (goroutine s) Query))
  | Take_Changed => mkSystem (requests_chan s) (fst (step (goroutine s) TakeChanged))
  | Take_Clear => mkSystem (requests_chan s) (fst (step (goroutine s) ClearMsg))
  end.

(** A schedule: the turns in order.  The result is the system afterwards
    with the messages the goroutine has handled, or nothing when a turn
    could not happen. *)
Definition schedule_step (acc : option (system * list msg)) (t : turn)
  : option (system * list msg) :=
  match acc with
  | None => None
  | Some (s, ms) =>
      if enabled s t then Some (turn_step s t, ms ++ option_list (handled s t))
      else None
  end.

Definition schedule (ts : list turn) : option (system * list msg) :=
  foldl schedule_step (Some (mkSystem [] processRequests, [])) ts.

(** The paths sent on the channel by the turns, and the paths of the
    requests among messages, both in order. *)
Definition sent (ts : list turn) : list string :=
  flat_map (fun t => if t is Send r then [r] else []) ts.

Definition requested (ms : list msg) : list string :=
  flat_map (fun m => if m is Request r then [r] else []) ms.

(** No turn is a clear. *)
Definition no_clear (ts : list turn) : Prop :=
  Forall (fun t => t <> Take_Clear) ts.

End Scheduling.

(** * Properties *)

Section SplitJoin.

Lemma Split_nonempty s : Split s <> [].
Proof. induction s as [|c s IH]; simpl; [done|]. destruct (Ascii.eqb c "/"%char); [done|]. by destruct (Split s). Qed.

Lemma app_cons_s c (a b : string) : String c a +:+ b = String c (a +:+ b).
Proof. reflexivity. Qed.

Lemma app_nil_s (b : string) : "" +:+ b = b.
Proof. reflexivity. Qed.

Lemma app_assoc_s (a b c : string) : (a +:+ b) +:+ c = a +:+ (b +:+ c).
Proof. induction a as [|x a IH]; [done | by rewrite !app_cons_s, IH]. Qed.

Lemma Split_app_sep a b : Split (a +:+ "/" +:+ b) = Split a ++ Split b.
Proof.
  induction a as [|c a IH]; [done|].
  rewrite app_cons_s. simpl. rewrite IH. destruct (Ascii.eqb c "/"%char); [done|].
  pose proof (Split_nonempty a). by destruct (Split a).
Qed.

Lemma Join_cons e es : es <> [] -> Join (e :: es) = e +:+ "/" +:+ Join es.
Proof. by destruct es. Qed.

Lemma Join_app l1 l2 :
  l1 <> [] -> l2 <> [] -> Join (l1 ++ l2) = Join l1 +:+ "/" +:+ Join l2.
Proof.
  intros H1 H2. induction l1 as [|e l1 IH]; [done|].
  destruct l1 as [|e' l1].
  - simpl app. by rewrite Join_cons.
  - rewrite <- app_comm_cons, !Join_cons by done.
    rewrite IH by done. by rewrite !app_assoc_s.
Qed.

Lemma Join_Split s : Join (Split s) = s.
Proof.
  induction s as [|c s IH]; simpl; [done|].
  destruct (Ascii.eqb_spec c "/"%char) as [->|Hc].
  - rewrite Join_cons by apply Split_nonempty. by rewrite IH.
  - pose proof (Split_nonempty s). destruct (Split s) as [|d ds]; [done|].
    destruct ds as [|d' ds]; simpl in *; by rewrite <- IH.
Qed.

Lemma has_sep_Split s : has_sep s = true <-> 2 <= length (Split s).
Proof.
  induction s as [|c s IH]; simpl.
  - split; [done|lia].
  - pose proof (Split_nonempty s).
    destruct (Ascii.eqb c "/"%char); simpl.
    + split; [|done]. intros _. destruct (Split s); simpl; [done|lia].
    + rewrite IH. by destruct (Split s).
Qed.

Lemma has_sep_Join l : 2 <= length l -> has_sep (Join l) = true.
Proof.
  destruct l as [|e [|e' l]]; simpl; [lia..|]. intros _.
  induction e as [|c e IH]; [done|]. rewrite app_cons_s. simpl. by rewrite IH, orb_true_r.
Qed.

Lemma has_sep_absolute p rest :
  absolute (p +:+ "/" +:+ rest) -> p <> "" -> has_sep p = true.
Proof.
  intros [r Hr] Hp. destruct p as [|c p]; [done|].
  rewrite app_cons_s in Hr. injection Hr as -> _. done.
Qed.

Lemma has_sep_nonempty p : has_sep p = true -> p <> "".
Proof. by destruct p. Qed.

End SplitJoin.

(** Membership in what the inner loop adds for one file. *)
Lemma elem_of_inner_loop (dirs : list string) (k n : nat) (acc : gset string) p :
  p ∈ foldl (fun include i => {[ Join (take i dirs) ]} ∪ include) acc (seq k n)
  <-> p ∈ acc \/ exists i, k <= i < k + n /\ p = Join (take i dirs).
Proof.
  revert acc k. induction n as [|n IH]; intros acc k; simpl.
  - split; [auto|]. intros [?|(i & ? & _)]; [done|lia].
  - rewrite IH, elem_of_union, elem_of_singleton. split.
    + intros [[->| ?]|(i & ? & ->)]; eauto.
      * right. exists k. split; [lia|done].
      * right. exists i. split; [lia|done].
    + intros [?|(i & Hi & ->)]; [auto|].
      destruct (decide (i = k)) as [->|]; [auto|].
      right. exists i. split; [lia|done].
Qed.

(** What the inner loop adds for [file]: the prefixes cut at a separator
    that is not the first separator of [file]. *)
Lemma inner_loop_prefixes file p :
  (exists i, 2 <= i < 2 + (length (Split file) - 2) /\ p = Join (take i (Split file)))
  <-> has_sep p = true /\ exists rest, file = p +:+ "/" +:+ rest.
Proof.
  split.
  - intros (i & Hi & ->).
    assert (length (take i (Split file)) = i) as Hlen by (rewrite length_take; lia).
    split; [apply has_sep_Join; lia|].
    exists (Join (drop i (Split file))).
    rewrite <- Join_app.
    + by rewrite take_drop, Join_Split.
    + intros E. rewrite E in Hlen. simpl in Hlen. lia.
    + intros E. apply (f_equal length) in E. rewrite length_drop in E. simpl in E. lia.
  - intros (Hsep & rest & ->).
    apply has_sep_Split in Hsep.
    pose proof (Split_nonempty rest) as Hrest.
    exists (length (Split p)). rewrite Split_app_sep, length_app.
    split.
    + destruct (Split rest); [done|]. simpl. lia.
    + by rewrite take_app_length, Join_Split.
Qed.

Lemma elem_of_outer_loop (l : list string) (acc : gset string) p :
  p ∈ foldl (fun include file =>
               let include := {[ file ]} ∪ include in
               let dirs := Split file in
               foldl (fun include i => {[ Join (take i dirs) ]} ∪ include)
                     include (seq 2 (length dirs - 2))) acc l
  <-> p ∈ acc \/ p ∈ l \/
      exists file, file ∈ l /\ has_sep p = true /\ exists rest, file = p +:+ "/" +:+ rest.
Proof.
  revert acc. induction l as [|file l IH]; intros acc; simpl.
  - split; [auto|]. intros [?|[H|(f & H & _)]]; [done|by apply elem_of_nil in H..].
  - rewrite IH, elem_of_inner_loop, inner_loop_prefixes.
    rewrite elem_of_union, elem_of_singleton, elem_of_cons.
    split.
    + intros [[[->|?]|H]|[?|(f & ? & ?)]]; eauto 6.
      * right; right. exists file. split; [left|]; done.
      * right; right. exists f. split; [by right|done].
    + intros [?|[[->|?]|(f & [->|?]%elem_of_cons & ?)]]; eauto 8.
Qed.

(** The inclusion set for any include list: the root, the listed paths, and
    of each listed path the prefixes cut at a separator other than its
    first. *)
Lemma elem_of_loadIncludeList (l : list string) p :
  p ∈ loadIncludeList l
  <-> p = "/" \/ p ∈ l \/
      exists file, file ∈ l /\ has_sep p = true /\ exists rest, file = p +:+ "/" +:+ rest.
Proof. unfold loadIncludeList. by rewrite elem_of_outer_loop, elem_of_singleton. Qed.

(** C2 (amended): for every include list of absolute paths the inclusion set
    holds exactly the root path, the listed paths and the strict ancestor
    directories of the listed paths; and the include list
    ["/css/app.css"; "/js/app.js"] gives the five paths of the spec. *)
Theorem loadIncludeList_closure :
  (forall l : list string, Forall absolute l ->
     forall p, p ∈ loadIncludeList l
               <-> p = "/" \/ p ∈ l \/ exists file, file ∈ l /\ strict_ancestor p file)
  /\ loadIncludeList ["/css/app.css"; "/js/app.js"]
     = {[ "/"; "/css"; "/css/app.css"; "/js"; "/js/app.js" ]}.
Proof.
  split.
  - intros l Habs p. rewrite elem_of_loadIncludeList.
    do 2 (apply or_iff_compat_l). unfold strict_ancestor.
    split; intros (file & Hin & H); exists file; (split; [done|]).
    + destruct H as [Hs Hr]. split; [by apply has_sep_nonempty | done].
    + destruct H as [Hp [rest ->]]. split; [|by eauto].
      rewrite Forall_forall in Habs. apply (has_sep_absolute p rest); [|done].
      by apply Habs.
  - by vm_compute.
Qed.

(** C2, the claim as stated, at the include list ["css/app.css"]: the
    directory [css] is a strict ancestor of the listed path and the
    inclusion set does not hold it. *)
Lemma loadIncludeList_relative_counterexample :
  loadIncludeList ["css/app.css"] = {[ "/"; "css/app.css" ]}
  /\ strict_ancestor "css" "css/app.css"
  /\ ~ (forall p, p ∈ loadIncludeList ["css/app.css"]
                  <-> p = "/" \/ p ∈ ["css/app.css"]
                      \/ exists file, file ∈ ["css/app.css"] /\ strict_ancestor p file).
Proof.
  assert (strict_ancestor "css" "css/app.css") as Hanc.
  { split; [done|]. by exists "app.css". }
  split; [by vm_compute|]. split; [done|].
  intros H. specialize (H "css"). destruct H as [_ H].
  assert ("css" ∈ loadIncludeList ["css/app.css"]) as Hin.
  { apply H. right; right. exists "css/app.css". split; [|done]. by left. }
  revert Hin. by vm_compute.
Qed.

Lemma loadIncludeList_closure_witness :
  Forall absolute ["/css/app.css"; "/js/app.js"]
  /\ forall p, p ∈ loadIncludeList ["/css/app.css"; "/js/app.js"]
               <-> p = "/" \/ p ∈ ["/css/app.css"; "/js/app.js"]
                   \/ exists file, file ∈ ["/css/app.css"; "/js/app.js"]
                                   /\ strict_ancestor p file.
Proof.
  assert (Forall absolute ["/css/app.css"; "/js/app.js"]) as Habs.
  { repeat constructor; [by exists "css/app.css" | by exists "js/app.js"]. }
  split; [exact Habs|].
  exact (proj1 loadIncludeList_closure _ Habs).
Defined.

(** ** Options *)

(** C8, the claim as stated, at the options with every field missing:
    [fillMissing] leaves [Filename] and [VariableComment] missing, and
    [New] hands them to the generator as they are. *)
Lemma fillMissing_counterexample :
  fillMissing (mkOptions "" "" "" "" "" "" "")
  = mkOptions "" "main" "!dev" "assets" "" "assets_list.go" "dev"
  /\ ~ all_defaulted (fillMissing (mkOptions "" "" "" "" "" "" ""))
  /\ vfsgen_Filename (FilterDir_Options (New "gui" (mkOptions "" "" "" "" "" "" ""))) = "".
Proof.
  split; [reflexivity|]. split; [|reflexivity].
  intros [H _]. by apply H.
Qed.

(** C8 (amended): [fillMissing] never rejects; it gives [PackageName],
    [VariableName], [ListFileName], [VfsgenBuildTags] and
    [ListFileBuildTags] their defaults when they are empty and passes
    supplied values through; [Filename] and [VariableComment] are passed
    through as they are, empty or not. *)
Theorem fillMissing_defaults (opt : Options) :
  PackageName (fillMissing opt) = or_default (PackageName opt) "main"
  /\ VariableName (fillMissing opt) = or_default (VariableName opt) "assets"
  /\ ListFileName (fillMissing opt) = or_default (ListFileName opt) "assets_list.go"
  /\ VfsgenBuildTags (fillMissing opt) = or_default (VfsgenBuildTags opt) "!dev"
  /\ ListFileBuildTags (fillMissing opt) = or_default (ListFileBuildTags opt) "dev"
  /\ Filename (fillMissing opt) = Filename opt
  /\ VariableComment (fillMissing opt) = VariableComment opt.
Proof.
  destruct opt as [fn pn bt vn vc ln lt].
  destruct pn, vn, ln, bt, lt; repeat split.
Qed.

(** ** Open *)

Section OpenProps.
Context `{RS : ResourceStore}.

(** C6: in discovery mode a failed store open is returned as it is and
    nothing is sent to the recorder (the [FilterDir] is unchanged); a
    successful one sends the path on [requests] and returns the store's
    file. *)
Theorem Open_discovery (f : FilterDir) (name : string) (σ : store) :
  FilterMode f = false ->
  match Dir_Open (dir f) name σ with
  | (inr err, σ') => Open f name σ = (inr err, f, σ')
  | (inl file, σ') =>
      exists f', Open f name σ = (inl (Plain file), f', σ')
                 /\ requests f' = requests f ++ [name]
  end.
Proof.
  intros Hmode. unfold Open.
  destruct (Dir_Open (dir f) name σ) as [[file|err] σ']; [|done].
  rewrite bool_decide_eq_true_2 by done. eauto.
Qed.

(** C1 (amended): in filter mode a path outside the inclusion set is never
    opened: [Open] returns [os.ErrNotExist] when the store opens the path,
    and the store's own failure, unchanged, when it does not. *)
Theorem Open_filter_veto (f : FilterDir) (name : string) (σ : store) :
  FilterMode f = true ->
  name ∉ InclusionSet f ->
  Open f name σ =
    match Dir_Open (dir f) name σ with
    | (inl _, σ') => (inr ErrNotExist, loadOnce_Do f, σ')
    | (inr err, σ') => (inr err, f, σ')
    end.
Proof.
  intros Hmode Hnot. unfold Open.
  destruct (Dir_Open (dir f) name σ) as [[file|err] σ']; [|done].
  rewrite bool_decide_eq_false_2 by (rewrite Hmode; done).
  by rewrite bool_decide_eq_false_2.
Qed.

(** A filtered [Open] that succeeds wraps the store's file under the name
    it was asked for, with the inclusion set. *)
Lemma Open_filter_member (f : FilterDir) (name : string) (σ : store) :
  FilterMode f = true ->
  name ∈ InclusionSet f ->
  Open f name σ =
    match Dir_Open (dir f) name σ with
    | (inl file, σ') =>
        (inl (Filtered (mkFile file name (InclusionSet f))), loadOnce_Do f, σ')
    | (inr err, σ') => (inr err, f, σ')
    end.
Proof.
  intros Hmode Hin. unfold Open.
  destruct (Dir_Open (dir f) name σ) as [[file|err] σ']; [|done].
  rewrite bool_decide_eq_false_2 by (rewrite Hmode; done).
  by rewrite bool_decide_eq_true_2.
Qed.

End OpenProps.

Lemma Open_discovery_witness :
  FilterMode (New "gui" (mkOptions "" "" "" "" "" "" "")) = false
  /\ exists f',
       Open (RS := gui) (New "gui" (mkOptions "" "" "" "" "" "" "")) "/css/app.css" []
       = (inl (Plain (RS := gui) 0), f', [[]])
       /\ requests f' = ["/css/app.css"].
Proof.
  split; [reflexivity|].
  exact (Open_discovery (RS := gui) (New "gui" (mkOptions "" "" "" "" "" "" ""))
           "/css/app.css" [] eq_refl).
Defined.

Lemma Open_filter_veto_witness :
  FilterMode (filtering ["/css/app.css"]) = true
  /\ ("/img/logo.png" ∉ InclusionSet (filtering ["/css/app.css"]))
  /\ fst (fst (Open (RS := gui) (filtering ["/css/app.css"]) "/img/logo.png" []))
     = inr ErrNotExist.
Proof.
  assert ("/img/logo.png" ∉ InclusionSet (filtering ["/css/app.css"])) as Hnot
    by (by vm_compute).
  split; [reflexivity|]. split; [exact Hnot|].
  by rewrite (Open_filter_veto (RS := gui) (filtering ["/css/app.css"])
                "/img/logo.png" [] eq_refl Hnot).
Defined.

(** C1, the claim as stated, at the path "/secret", which is outside the
    inclusion set and which the store refuses to open: [Open] fails with
    the store's permission error, not with a not-found error, while the
    excluded path "/img/logo.png", which the store opens, gives
    [os.ErrNotExist]. *)
Lemma Open_veto_counterexample :
  FilterMode (filtering ["/css/app.css"]) = true
  /\ ("/secret" ∉ InclusionSet (filtering ["/css/app.css"]))
  /\ fst (fst (Open (RS := gui) (filtering ["/css/app.css"]) "/secret" []))
     = inr (PathError "open" "gui/secret" ErrPermission)
  /\ IsNotExist (PathError "open" "gui/secret" ErrPermission) = false
  /\ fst (fst (Open (RS := gui) (filtering ["/css/app.css"]) "/img/logo.png" []))
     = inr ErrNotExist.
Proof. repeat split; by vm_compute. Qed.

(** ** Readdir *)

Section SliceProps.

Lemma length_app_s (a b : string) :
  String.length (a +:+ b) = String.length a + String.length b.
Proof. induction a as [|c a IH]; [done|]. rewrite app_cons_s. simpl. by rewrite IH. Qed.

Lemma substring_whole (b : string) : String.substring 0 (String.length b) b = b.
Proof. induction b as [|c b IH]; [done|]. simpl. by rewrite IH. Qed.

Lemma substring_app_r (a b : string) :
  String.substring (String.length a) (String.length b) (a +:+ b) = b.
Proof. induction a as [|c a IH]; [apply substring_whole|]. by rewrite app_cons_s. Qed.

Lemma substring_app_l (a b : string) :
  String.substring 0 (String.length a) (a +:+ b) = a.
Proof.
  induction a as [|c a IH]; [by destruct b|].
  rewrite app_cons_s. simpl. by rewrite IH.
Qed.

(** A string that is not empty has a last byte. *)
Lemma snoc_decomp (s : string) : s <> "" -> exists s0 c, s = s0 +:+ String c "".
Proof.
  induction s as [|c s IH]; [done|]. intros _.
  destruct s as [|c' s].
  - by exists "", c.
  - destruct IH as (s0 & c0 & E); [done|]. exists (String c s0), c0.
    by rewrite app_cons_s, <- E.
Qed.

Lemma slice_last (s0 : string) (c : ascii) :
  slice (s0 +:+ String c "") (len (s0 +:+ String c "") - 1) (len (s0 +:+ String c ""))
  = Some (String c "").
Proof.
  unfold slice, len. rewrite length_app_s. simpl String.length.
  rewrite bool_decide_eq_true_2 by lia. f_equal.
  replace (Z.to_nat _) with (String.length s0) by lia.
  replace (Z.to_nat _) with (String.length (String c "")) by (simpl; lia).
  apply substring_app_r.
Qed.

Lemma slice_init (s0 : string) (c : ascii) :
  slice (s0 +:+ String c "") 0 (len (s0 +:+ String c "") - 1) = Some s0.
Proof.
  unfold slice, len. rewrite length_app_s. simpl String.length.
  rewrite bool_decide_eq_true_2 by lia. f_equal.
  replace (Z.to_nat (_ - 0)) with (String.length s0) by lia.
  apply substring_app_l.
Qed.

Lemma slice_last_empty : slice "" (len "" - 1) (len "") = None.
Proof. reflexivity. Qed.

Lemma strip_trailing_snoc (s : string) (c : ascii) :
  strip_trailing (s +:+ String c "")
  = if Ascii.eqb c "/"%char then s else s +:+ String c "".
Proof.
  induction s as [|x s IH]; [done|].
  rewrite !app_cons_s. simpl. rewrite IH.
  destruct s as [|y s]; by destruct (Ascii.eqb c "/"%char).
Qed.

Lemma strip_trailing_sep (s : string) : strip_trailing (s +:+ "/") = s.
Proof. by rewrite strip_trailing_snoc. Qed.

Lemma strip_trailing_other (s0 : string) (c : ascii) :
  c <> "/"%char -> strip_trailing (s0 +:+ String c "") = s0 +:+ String c "".
Proof.
  intros Hc. rewrite strip_trailing_snoc.
  by destruct (Ascii.eqb_spec c "/"%char).
Qed.

Lemma app_snoc_inj (a b : string) (c d : ascii) :
  a +:+ String c "" = b +:+ String d "" -> a = b /\ c = d.
Proof.
  revert b. induction a as [|x a IH]; intros [|y b] E; rewrite ?app_cons_s in E.
  - by injection E.
  - injection E as -> E. by destruct b.
  - injection E as -> E. by destruct a.
  - injection E as -> E. apply IH in E as [-> ->]. done.
Qed.

Lemma strip_trailing_no_sep (path : string) :
  ~ has_trailing_sep path -> strip_trailing path = path.
Proof.
  intros Hno. destruct (decide (path = "")) as [->|Hne]; [done|].
  destruct (snoc_decomp path Hne) as (s0 & c & ->).
  apply strip_trailing_other. intros ->. apply Hno. by exists s0.
Qed.

End SliceProps.

(** The loop that appends the entries found in the include map keeps
    exactly those entries, in order. *)
Lemma append_loop_filter {A : Type} (keep : A -> bool) (info acc : list A) :
  foldl (fun newInfo i => if keep i then newInfo ++ [i] else newInfo) acc info
  = acc ++ List.filter keep info.
Proof.
  revert acc. induction info as [|i info IH]; intros acc; simpl.
  - by rewrite app_nil_r.
  - rewrite IH. destruct (keep i); [|done]. by rewrite <- app_assoc.
Qed.

Section ReaddirProps.
Context `{RS : ResourceStore}.

(** [Readdir] panics exactly on a [File] whose stored name is empty. *)
Lemma Readdir_Panic_iff (f : File) (count : Z) (σ : store) :
  Readdir f count σ = Panic <-> File_name f = "".
Proof.
  unfold Readdir. split.
  - intros H. destruct (decide (File_name f = "")) as [|Hne]; [done|exfalso].
    destruct (snoc_decomp _ Hne) as (s0 & c & E). rewrite E in H.
    rewrite slice_last, slice_init in H.
    destruct (String.eqb (String c "") "/"), (File_Readdir _ _ _) as [[??]?]; done.
  - intros ->. done.
Qed.

(** On a stored name that is not empty, [Readdir] returns the store's
    listing filtered by the include map, with the store's error, and
    writes the stripped name back. *)
Lemma Readdir_Return (f : File) (count : Z) (σ : store) :
  File_name f <> "" ->
  Readdir f count σ =
    Return ((List.filter (visible (File_include f) (File_name f))
                         (fst (fst (File_Readdir (File_File f) count σ))),
             snd (fst (File_Readdir (File_File f) count σ))),
            mkFile (File_File f) (strip_trailing (File_name f)) (File_include f),
            snd (File_Readdir (File_File f) count σ)).
Proof.
  intros Hne. unfold Readdir, visible, full_path.
  destruct (snoc_decomp _ Hne) as (s0 & c & E). rewrite E.
  rewrite slice_last, slice_init.
  destruct (Ascii.eqb_spec c "/"%char) as [->|Hc].
  - rewrite strip_trailing_sep. simpl.
    destruct (File_Readdir _ _ _) as [[info err] σ']. simpl.
    by rewrite append_loop_filter.
  - rewrite strip_trailing_other by done.
    destruct (String.eqb_spec (String c "") "/") as [[=]|_]; [done|]. simpl.
    destruct (File_Readdir _ _ _) as [[info err] σ']. simpl.
    by rewrite append_loop_filter.
Qed.

(** C9: reading the root listing of a filtered overlay a second time runs
    into the slice expression out of range.  The [File] that [Open] gives
    for "/" has a name that is not empty; its first [Readdir] returns and
    leaves the empty name behind, and every later [Readdir] on it panics. *)
Theorem Readdir_root_out_of_range
    (f f' : FilterDir) (σ σ' : store) (file : File) (count count' : Z) :
  Open f "/" σ = (inl (Filtered file), f', σ') ->
  File_name file <> ""
  /\ exists r file' σ'',
       Readdir file count σ' = Return (r, file', σ'')
       /\ File_name file' = ""
       /\ forall σ3, Readdir file' count' σ3 = Panic.
Proof.
  intros HOpen. assert (File_name file = "/") as Hname.
  { unfold Open in HOpen.
    destruct (Dir_Open (dir f) "/" σ) as [[h|err] σ1]; [|done].
    destruct (bool_decide (FilterMode f = false)); [done|].
    destruct (bool_decide ("/" ∈ include (loadOnce_Do f))); [|done].
    by injection HOpen as <- _ _. }
  split; [by rewrite Hname|].
  eexists _, _, _. split; [apply Readdir_Return; by rewrite Hname|].
  split; [by rewrite Hname|].
  intros σ3. apply Readdir_Panic_iff. by rewrite Hname.
Qed.

(** C10 (amended): [Readdir] writes the stored name back with exactly one
    trailing separator stripped, if there is one, and leaves the store's
    file and the include map of the [File] as they were.  When the name
    did not end in two separators the stored name has no trailing separator
    afterwards, and a further [Readdir] on a name that is still not empty
    leaves the [File] unchanged. *)
Theorem Readdir_strips_one_separator (f : File) (count : Z) (σ : store) :
  File_name f <> "" ->
  exists r name' σ',
    Readdir f count σ = Return (r, mkFile (File_File f) name' (File_include f), σ')
    /\ (forall s, File_name f = s +:+ "/" -> name' = s)
    /\ (~ has_trailing_sep (File_name f) -> name' = File_name f)
    /\ ((forall s, File_name f <> s +:+ "//") ->
        ~ has_trailing_sep name'
        /\ (name' <> "" ->
            forall count2 σ2, exists r2 σ2',
              Readdir (mkFile (File_File f) name' (File_include f)) count2 σ2
              = Return (r2, mkFile (File_File f) name' (File_include f), σ2'))).
Proof.
  intros Hne. eexists _, (strip_trailing (File_name f)), _.
  split; [by apply Readdir_Return|].
  split; [intros s ->; apply strip_trailing_sep|].
  split; [apply strip_trailing_no_sep|].
  intros Hnot2.
  assert (~ has_trailing_sep (strip_trailing (File_name f))) as Hclean.
  { destruct (snoc_decomp _ Hne) as (s0 & c & E). rewrite E.
    destruct (Ascii.eqb_spec c "/"%char) as [->|Hc].
    - rewrite strip_trailing_sep. intros [s ->]. apply (Hnot2 s).
      by rewrite E, app_assoc_s.
    - rewrite strip_trailing_other by done. intros [s Hs].
      by apply app_snoc_inj in Hs as [_ ->]. }
  split; [done|]. intros Hne' count2 σ2. eexists _, _.
  rewrite Readdir_Return by done. simpl.
  by rewrite (strip_trailing_no_sep _ Hclean).
Qed.

End ReaddirProps.

Lemma Readdir_root_out_of_range_witness :
  Open (RS := gui) (filtering ["/css/app.css"]) "/" []
  = (inl (Filtered (mkFile (RS := gui) 0 "/" {[ "/"; "/css"; "/css/app.css" ]})),
     loadOnce_Do (filtering ["/css/app.css"]),
     [[mkFileInfo "css" true; mkFileInfo "img" true]])
  /\ exists r file' σ'',
       Readdir (RS := gui) (mkFile (RS := gui) 0 "/" {[ "/"; "/css"; "/css/app.css" ]}) 1
               [[mkFileInfo "css" true; mkFileInfo "img" true]]
       = Return (r, file', σ'')
       /\ File_name file' = ""
       /\ forall σ3, Readdir (RS := gui) file' 1 σ3 = Panic.
Proof.
  assert (Open (RS := gui) (filtering ["/css/app.css"]) "/" []
          = (inl (Filtered (mkFile (RS := gui) 0 "/" {[ "/"; "/css"; "/css/app.css" ]})),
             loadOnce_Do (filtering ["/css/app.css"]),
             [[mkFileInfo "css" true; mkFileInfo "img" true]])) as HOpen
    by (by vm_compute).
  split; [exact HOpen|].
  exact (proj2 (Readdir_root_out_of_range (RS := gui) _ _ _ _ _ 1 1 HOpen)).
Defined.

(** C5 at the failing input: with the include list ["/css/app.css"] the
    inclusion set is the one of the spec's example and the root of the
    store holds [css] and [img].  A [Readdir] on the root returns only
    [css], for [count = 0] and for [count = 1]; the next [Readdir(1)] on
    the same [File], for which the store has [img] left, panics instead of
    returning the empty filtered listing. *)
Theorem Readdir_root_listing_then_panic :
  InclusionSet (filtering ["/css/app.css"]) = {[ "/"; "/css"; "/css/app.css" ]}
  /\ exists (file : File (RS := gui)) (σ1 : store (ResourceStore := gui)),
       Open (RS := gui) (filtering ["/css/app.css"]) "/" []
       = (inl (Filtered file), loadOnce_Do (filtering ["/css/app.css"]), σ1)
       /\ (exists file' σ2,
             Readdir file 0 σ1 = Return (([mkFileInfo "css" true], None), file', σ2))
       /\ exists file' σ2,
            Readdir file 1 σ1 = Return (([mkFileInfo "css" true], None), file', σ2)
            /\ File_Readdir (File_File file') 1 σ2 = (([mkFileInfo "img" true], None), [[]])
            /\ Readdir file' 1 σ2 = Panic.
Proof.
  split; [by vm_compute|].
  eexists _, _. split; [by vm_compute|].
  split; eexists _, _; [by vm_compute|].
  split; [by vm_compute|]. split; by vm_compute.
Qed.

(** C10, the claim as stated, at the [File] that a filtered [Open] gives
    for "/css//": after a [Readdir] the stored name "/css/" still ends with
    a separator, and the next [Readdir] changes the stored name again. *)
Lemma Readdir_strip_counterexample :
  exists (file file1 file2 : File (RS := gui)) (σ1 σ2 σ3 : store (ResourceStore := gui)) r1 r2,
    Open (RS := gui) (filtering ["/css//"]) "/css//" []
    = (inl (Filtered file), loadOnce_Do (filtering ["/css//"]), σ1)
    /\ Readdir file 0 σ1 = Return (r1, file1, σ2)
    /\ File_name file1 = "/css/"
    /\ has_trailing_sep (File_name file1)
    /\ Readdir file1 0 σ2 = Return (r2, file2, σ3)
    /\ File_name file2 = "/css"
    /\ File_name file2 <> File_name file1.
Proof.
  eexists _, _, _, _, _, _, _, _.
  split; [by vm_compute|]. split; [by vm_compute|]. split; [by vm_compute|].
  split; [by exists "/css"|]. split; [by vm_compute|]. split; [by vm_compute|].
  done.
Qed.

Lemma Readdir_strips_one_separator_witness :
  "/css/" <> ""
  /\ exists r name' σ',
       Readdir (RS := gui) (mkFile (RS := gui) 0 "/css/" {[ "/"; "/css"; "/css/app.css" ]})
               0 [[mkFileInfo "app.css" false]]
       = Return (r, mkFile (RS := gui) 0 name' {[ "/"; "/css"; "/css/app.css" ]}, σ')
       /\ name' = "/css".
Proof.
  split; [done|].
  destruct (Readdir_strips_one_separator (RS := gui)
              (mkFile (RS := gui) 0 "/css/" {[ "/"; "/css"; "/css/app.css" ]})
              0 [[mkFileInfo "app.css" false]]) as (r & name' & σ' & HR & Hs & _);
    [done|].
  exists r, name', σ'. split; [exact HR|]. by apply (Hs "/css").
Defined.

(** ** The access recorder *)

Import Recorder.

Section Heap.
Implicit Types (h : gmap nat (list string)) (s a : Slice).

Lemma array_insert_eq h s v : array (<[ptr s := v]> h) s = v.
Proof. unfold array. by rewrite lookup_insert_eq. Qed.

Lemma array_insert_at h l n v : array (<[l := v]> h) (mkSlice l n) = v.
Proof. apply (array_insert_eq h (mkSlice l n)). Qed.

Lemma array_insert_ne h s l v : l <> ptr s -> array (<[l := v]> h) s = array h s.
Proof. intros. unfold array. by rewrite lookup_insert_ne. Qed.

Lemma elems_insert_ne h s l v : l <> ptr s -> elems (<[l := v]> h) s = elems h s.
Proof. intros. unfold elems. by rewrite array_insert_ne. Qed.

Lemma length_elems h s : length_ s <= length (array h s) -> length (elems h s) = length_ s.
Proof. intros. unfold elems. by rewrite length_take_le. Qed.

(** [append] puts the new element after the elements of the slice, and
    writes nowhere else among the allocated arrays. *)
Lemma append_spec s r h nxt :
  ptr s < nxt -> length_ s <= length (array h s) ->
  forall s' h' nxt', append s r h nxt = (s', h', nxt') ->
    elems h' s' = elems h s ++ [r]
    /\ ptr s' < nxt' /\ length_ s' <= length (array h' s')
    /\ nxt <= nxt'
    /\ (ptr s' = ptr s \/ ptr s' = nxt)
    /\ forall l, l < nxt -> l <> ptr s -> h' !! l = h !! l.
Proof.
  intros Hptr Hlen s' h' nxt'. unfold append.
  destruct (Nat.ltb_spec (length_ s) (length (array h s))) as [Hlt|Hge];
    intros [= <- <- <-]; unfold elems; simpl.
  - rewrite array_insert_at, length_insert.
    split.
    { erewrite take_S_r by (by apply list_lookup_insert_eq).
      by rewrite take_insert_ge. }
    repeat split; [lia..|by left|].
    intros l _ Hl. by rewrite lookup_insert_ne.
  - rewrite !array_insert_at.
    assert (length (take (length_ s) (array h s)) = length_ s) as Htl
      by (by apply length_take_le).
    split.
    { rewrite cons_middle, app_assoc, take_app_length'; [done|].
      rewrite length_app, Htl. simpl. lia. }
    repeat split; [lia| |lia|by right|].
    + rewrite length_app, Htl. simpl. lia.
    + intros l Hl _. rewrite lookup_insert_ne; [done|lia].
Qed.

(** Whatever algorithm sorts, the result is the one of [merge_sort]: a
    sorted arrangement of the same elements is unique. *)
Lemma sorted_arrangement_unique (l l' : list string) :
  l' ≡ₚ l -> Sorted String.le l' -> l' = merge_sort String.le l.
Proof.
  intros Hperm Hsorted. apply (Sorted_unique String.le); [done| |].
  - apply (Sorted_merge_sort _).
  - by rewrite merge_sort_Permutation.
Qed.

(** [Sort] rearranges the elements of the slice and nothing else. *)
Lemma Sort_spec s h :
  length_ s <= length (array h s) ->
  elems (Sort s h) s = merge_sort String.le (elems h s)
  /\ length (array (Sort s h) s) = length (array h s)
  /\ forall l, l <> ptr s -> Sort s h !! l = h !! l.
Proof.
  intros Hlen. unfold Sort, elems. rewrite array_insert_eq.
  assert (length (merge_sort String.le (take (length_ s) (array h s))) = length_ s) as Hl.
  { rewrite (Permutation_length (merge_sort_Permutation _ _)). by apply length_take_le. }
  split; [by rewrite take_app_length'|].
  split.
  - rewrite length_app, Hl, length_drop. lia.
  - intros l Hne. by rewrite lookup_insert_ne.
Qed.

(** The copy that a query makes holds the elements of the source slice.
    It is a fresh array when there are elements, and the slice of no
    elements at [zerobase] when there are none. *)
Lemma copy_make_spec s h nxt :
  ptr s < nxt -> length_ s <= length (array h s) ->
  forall a h0 nxt', make (length_ s) (length_ s) h nxt = (a, h0, nxt') ->
    ptr a = (if length_ s =? 0 then zerobase else nxt)
    /\ nxt' = (if length_ s =? 0 then nxt else S nxt)
    /\ elems (copy a s h0) a = elems h s
    /\ elems (copy a s h0) s = elems h s
    /\ array (copy a s h0) s = array h s
    /\ length_ a = length_ s
    /\ forall l, l <> ptr a -> copy a s h0 !! l = h !! l.
Proof.
  intros Hptr Hlen a h0 nxt'. unfold make.
  destruct (length_ s =? 0) eqn:Hz; intros [= <- <- <-]; simpl.
  - apply Nat.eqb_eq in Hz.
    assert (forall s', array (copy (mkSlice zerobase (length_ s)) s h) s' = array h s') as Harr.
    { intros s'. unfold copy. simpl. rewrite Hz. simpl.
      destruct (decide (zerobase = ptr s')) as [E|E].
      - unfold array at 1. simpl. rewrite <- E, lookup_insert_eq. simpl.
        unfold array. simpl. by rewrite <- E.
      - by rewrite array_insert_ne. }
    split; [done|]. split; [done|]. unfold elems. rewrite !Harr. simpl.
    split; [by rewrite Hz|]. split; [done|]. split; [done|]. split; [done|].
    intros l Hl. unfold copy. simpl. by rewrite lookup_insert_ne.
  - assert (nxt <> ptr s) as Hne by lia.
    assert (forall l, l <> nxt ->
              copy {| ptr := nxt; length_ := length_ s |} s
                   (<[nxt := replicate (length_ s) ""]> h) !! l = h !! l) as Hframe.
    { intros l Hl. unfold copy. simpl. by rewrite !lookup_insert_ne. }
    split; [done|]. split; [done|]. split; [|split; [|split]]; [| | |done].
    + unfold copy. simpl. rewrite Nat.min_id. unfold elems at 1. simpl.
      rewrite !array_insert_at.
      rewrite (elems_insert_ne _ s) by done.
      rewrite take_app_length'; [by rewrite take_ge by (by rewrite length_elems)|].
      rewrite length_take, length_elems by done. lia.
    + unfold elems, array. by rewrite Hframe by lia.
    + unfold array. by rewrite Hframe by lia.
Qed.

End Heap.

Section Steps.
Implicit Types (st : state) (m : msg).

(** A request for a path not yet in the map appends it and raises the flag;
    a request for a recorded path changes nothing. *)
Lemma step_Request st r :
  wf st ->
  if bool_decide (default false (includeMap st !! r) = false) then
    wf (fst (step st (Request r)))
    /\ contents (fst (step st (Request r))) = contents st ++ [r]
    /\ includeMap (fst (step st (Request r))) = <[r := true]> (includeMap st)
    /\ changed (fst (step st (Request r))) = true
  else fst (step st (Request r)) = st.
Proof.
  intros [Hptr Hlen]. simpl. case_bool_decide; [|done].
  destruct (append (includeList st) r (heap st) (next st)) as [[s' h'] nxt'] eqn:E.
  destruct (append_spec _ _ _ _ Hptr Hlen _ _ _ E) as (He & ? & ? & _).
  simpl. by repeat split.
Qed.

(** A query sorts when the flag is up, lowers the flag, and answers with a
    slice holding the sorted elements: a fresh one when there are
    elements, the one at [zerobase] when there are none. *)
Lemma step_Query st :
  wf st ->
  exists a,
    snd (step st Query) = Answer a
    /\ ptr a = (if length_ (includeList st) =? 0 then zerobase else next st)
    /\ wf (fst (step st Query))
    /\ contents (fst (step st Query))
       = (if changed st then merge_sort String.le (contents st) else contents st)
    /\ elems (heap (fst (step st Query))) a = contents (fst (step st Query))
    /\ includeList (fst (step st Query)) = includeList st
    /\ includeMap (fst (step st Query)) = includeMap st
    /\ changed (fst (step st Query)) = false
    /\ next (fst (step st Query))
       = (if length_ (includeList st) =? 0 then next st else S (next st))
    /\ length_ a = length_ (includeList st)
    /\ forall l, l <> ptr a -> l <> ptr (includeList st) ->
          heap (fst (step st Query)) !! l = heap st !! l.
Proof.
  intros [Hptr Hlen]. unfold step, contents.
  set (h1 := if changed st then Sort (includeList st) (heap st) else heap st).
  assert (length_ (includeList st) <= length (array h1 (includeList st))
          /\ elems h1 (includeList st)
             = if changed st then merge_sort String.le (elems (heap st) (includeList st))
               else elems (heap st) (includeList st)) as [Hlen1 He1].
  { subst h1. destruct (changed st); [|done].
    destruct (Sort_spec _ _ Hlen) as (-> & -> & _). done. }
  replace (if changed st then (Sort (includeList st) (heap st), false)
           else (heap st, changed st)) with (h1, false)
    by (subst h1; by destruct (changed st) eqn:Hc).
  destruct (make _ _ h1 (next st)) as [[a h0] nxt'] eqn:E.
  destruct (copy_make_spec _ _ _ Hptr Hlen1 _ _ _ E)
    as (Ha & -> & Hea & Hes & Harr & Hla & Hfr).
  exists a. simpl. unfold wf. simpl. rewrite Harr, Hea, Hes.
  split; [done|]. split; [done|]. split.
  { split; [|done]. destruct (length_ (includeList st) =? 0); lia. }
  do 7 (split; [done|]).
  intros l Hl1 Hl2. rewrite Hfr by done. subst h1.
  destruct (changed st); [|done]. unfold Sort. by rewrite lookup_insert_ne.
Qed.

(** What a query leaves alone, in any state. *)
Lemma step_Query_fields st :
  includeList (fst (step st Query)) = includeList st
  /\ includeMap (fst (step st Query)) = includeMap st
  /\ changed (fst (step st Query)) = false
  /\ exists a, snd (step st Query) = Answer a /\ length_ a = length_ (includeList st).
Proof.
  simpl. unfold make.
  destruct (changed st), (length_ (includeList st) =? 0); simpl;
    (do 3 (split; [done|])); by eexists.
Qed.

Lemma step_TakeChanged st : step st TakeChanged = (st, ChangedIs (changed st)).
Proof. done. Qed.

(** A clear starts over with an empty slice and an empty map, and raises
    the flag. *)
Lemma step_ClearMsg st :
  wf (fst (step st ClearMsg))
  /\ contents (fst (step st ClearMsg)) = []
  /\ length_ (includeList (fst (step st ClearMsg))) = 0
  /\ includeMap (fst (step st ClearMsg)) = ∅
  /\ changed (fst (step st ClearMsg)) = true.
Proof.
  unfold wf, contents, elems. simpl. rewrite array_insert_at.
  repeat split; simpl; lia.
Qed.

Lemma step_wf st m : wf st -> wf (fst (step st m)).
Proof.
  intros Hwf. destruct m as [r| | |].
  - pose proof (step_Request st r Hwf) as H. case_bool_decide.
    + by destruct H.
    + by rewrite H.
  - by destruct (step_Query st Hwf) as (a & _ & _ & ? & _).
  - done.
  - by destruct (step_ClearMsg st).
Qed.

(** No step writes to an allocated array other than the one of
    [includeList], and no step makes [includeList] point to one. *)
Lemma step_frame st m l :
  wf st -> zerobase < l -> l < next st -> l <> ptr (includeList st) ->
  heap (fst (step st m)) !! l = heap st !! l
  /\ l < next (fst (step st m))
  /\ l <> ptr (includeList (fst (step st m))).
Proof.
  intros [Hptr Hlen] Hz Hl Hne. destruct m as [r| | |]; [simpl| |simpl|simpl].
  - case_bool_decide; [|done].
    destruct (append (includeList st) r (heap st) (next st)) as [[s' h'] nxt'] eqn:E.
    destruct (append_spec _ _ _ _ Hptr Hlen _ _ _ E) as (_ & _ & _ & ? & Hp & Hf).
    simpl. split; [by apply Hf|]. split; [lia|]. destruct Hp as [-> | ->]; [done|lia].
  - destruct (step_Query st (conj Hptr Hlen))
      as (a & _ & Ha & _ & _ & _ & -> & _ & _ & -> & _ & Hfr).
    split; [|split; [|done]].
    + apply Hfr; [|done]. rewrite Ha. destruct (length_ (includeList st) =? 0); lia.
    + destruct (length_ (includeList st) =? 0); lia.
  - done.
  - rewrite lookup_insert_ne by lia. split; [done|]. split; lia.
Qed.

Lemma run_snoc st ms m : run st (ms ++ [m]) = fst (step (run st ms) m).
Proof. unfold run. by rewrite foldl_snoc. Qed.

Lemma run_wf st ms : wf st -> wf (run st ms).
Proof.
  intros Hwf. induction ms as [|m ms IH] using rev_ind; [done|].
  rewrite run_snoc. by apply step_wf.
Qed.

Lemma run_frame st ms l :
  wf st -> zerobase < l -> l < next st -> l <> ptr (includeList st) ->
  heap (run st ms) !! l = heap st !! l
  /\ l < next (run st ms)
  /\ l <> ptr (includeList (run st ms)).
Proof.
  intros Hwf Hz Hl Hne. induction ms as [|m ms IH] using rev_ind; [done|].
  rewrite run_snoc. destruct IH as (IH1 & IH2 & IH3).
  destruct (step_frame (run st ms) m l) as (H1 & H2 & H3); [by apply run_wf|done..|].
  by rewrite H1.
Qed.

Lemma processRequests_wf : wf processRequests.
Proof. unfold wf. simpl. rewrite array_insert_at. simpl. lia. Qed.

End Steps.

Section RecorderInvariant.

Lemma recorded_snoc ms m :
  recorded (ms ++ [m])
  = match m with
    | Request r => recorded ms ++ [r]
    | ClearMsg => []
    | _ => recorded ms
    end.
Proof. unfold recorded. by rewrite foldl_snoc. Qed.

Lemma recorded_Record_calls paths : recorded (Record_calls paths) = paths.
Proof.
  induction paths as [|p paths IH] using rev_ind; [done|].
  unfold Record_calls in *. rewrite fmap_app. simpl. by rewrite recorded_snoc, IH.
Qed.

Lemma Inv_init : Inv [] processRequests.
Proof.
  assert (contents processRequests = []) as E by done.
  unfold Inv. rewrite E. split; [constructor|]. split; [|split; [constructor|done]].
  intros r. change (includeMap processRequests) with (∅ : gmap string bool).
  rewrite lookup_empty. simpl. split; [done|by intros ?%elem_of_nil].
Qed.

Lemma Inv_step ms st m : wf st -> Inv ms st -> Inv (ms ++ [m]) (fst (step st m)).
Proof.
  intros Hwf (Hnd & Hmap & Hsort & Hrec). unfold Inv. rewrite recorded_snoc.
  destruct m as [r| | |].
  - pose proof (step_Request st r Hwf) as H. case_bool_decide as Hr.
    + destruct H as (_ & -> & -> & ->).
      assert (r ∉ contents st) as Hnew by (rewrite <- Hmap, Hr; done).
      split; [|split; [|split; [done|]]].
      * apply NoDup_app. split; [done|]. split; [|apply NoDup_singleton].
        intros x Hx ->%list_elem_of_singleton. done.
      * intros r0. rewrite elem_of_app, list_elem_of_singleton, <- Hmap.
        destruct (decide (r0 = r)) as [->|Hne].
        -- rewrite lookup_insert_eq. simpl. split; auto.
        -- rewrite lookup_insert_ne by done. split; [auto|]. by intros [?|?].
      * intros r0. rewrite !elem_of_app, Hrec. done.
    + rewrite H. split; [done|]. split; [done|]. split; [done|].
      intros r0. rewrite elem_of_app, list_elem_of_singleton, <- Hrec.
      split; [auto|]. intros [?| ->]; [done|].
      apply Hmap. by destruct (default false (includeMap st !! r)).
  - destruct (step_Query st Hwf) as (a & _ & _ & _ & -> & _ & _ & -> & -> & _).
    assert ((if changed st then merge_sort String.le (contents st) else contents st)
            ≡ₚ contents st) as Hperm.
    { destruct (changed st); [apply merge_sort_Permutation|done]. }
    split; [by rewrite Hperm|]. split; [|split].
    + intros r0. rewrite Hperm. apply Hmap.
    + intros _. destruct (changed st) eqn:Hc; [|by apply Hsort].
      apply (StronglySorted_merge_sort _).
    + intros r0. rewrite Hperm. apply Hrec.
  - done.
  - destruct (step_ClearMsg st) as (_ & -> & _ & -> & ->).
    split; [constructor|]. split; [|split; [done|done]].
    intros r0. rewrite lookup_empty. simpl. split; [done|by intros ?%elem_of_nil].
Qed.

Lemma run_Inv ms : wf (run processRequests ms) /\ Inv ms (run processRequests ms).
Proof.
  induction ms as [|m ms [IHwf IH]] using rev_ind.
  - split; [apply processRequests_wf | apply Inv_init].
  - rewrite run_snoc. split; [by apply step_wf | by apply Inv_step].
Qed.

(** What [List] returns in a well-formed state: the elements of
    [includeList], sorted if the flag was up, in a slice of its own that no
    later message changes. *)
Lemma List_spec st :
  wf st ->
  exists a st',
    sortedList_List st
    = (if changed st then merge_sort String.le (contents st) else contents st, a, st')
    /\ st' = fst (step st Query)
    /\ forall later, elems (heap (run st' later)) a
                     = if changed st then merge_sort String.le (contents st)
                       else contents st.
Proof.
  intros Hwf.
  destruct (step_Query st Hwf)
    as (a & Ha & Hptr & Hwf' & Hc & He & Hil & _ & _ & Hnext & Hla & _).
  exists a, (fst (step st Query)).
  unfold sortedList_List. destruct (step st Query) as [st' rep] eqn:E.
  simpl in *. subst rep. rewrite He, Hc. split; [done|]. split; [done|].
  intros later. rewrite <- Hc, <- He.
  destruct (length_ (includeList st) =? 0) eqn:Hz.
  - apply Nat.eqb_eq in Hz. unfold elems. by rewrite Hla, Hz.
  - destruct Hwf as [Hil_lt _].
    destruct (run_frame st' later (ptr a)) as (Hh & _ & _);
      [done|unfold zerobase; lia|lia| |].
    { rewrite Hil. lia. }
    unfold elems, array. by rewrite Hh.
Qed.

End RecorderInvariant.

(** What [List] returns after any messages: the paths recorded since the
    last clear, each once, in ascending order, in a slice that later
    messages leave alone. *)
Lemma List_snapshot (ms : list msg) :
  exists l a st',
    sortedList_List (run processRequests ms) = (l, a, st')
    /\ NoDup l
    /\ (forall p, p ∈ l <-> p ∈ recorded ms)
    /\ StronglySorted String.le l
    /\ forall later, elems (heap (run st' later)) a = l.
Proof.
  destruct (run_Inv ms) as [Hwf (Hnd & _ & Hsort & Hrec)].
  destruct (List_spec _ Hwf) as (a & st' & HL & _ & Hlater).
  eexists _, a, st'. split; [exact HL|].
  assert ((if changed (run processRequests ms)
           then merge_sort String.le (contents (run processRequests ms))
           else contents (run processRequests ms))
          ≡ₚ contents (run processRequests ms)) as Hperm.
  { destruct (changed _); [apply merge_sort_Permutation|done]. }
  split; [by rewrite Hperm|]. split; [intros p; by rewrite Hperm|].
  split; [|done].
  destruct (changed (run processRequests ms)) eqn:Hc; [|by apply Hsort].
  apply (StronglySorted_merge_sort _).
Qed.

Lemma StronglySorted_lookup {A} (R : relation A) (l : list A) i j x y :
  StronglySorted R l -> i < j -> l !! i = Some x -> l !! j = Some y -> R x y.
Proof.
  intros Hs. revert i j. induction Hs as [|z l Hs IH Hall]; intros i j Hij Hi Hj.
  - by rewrite lookup_nil in Hi.
  - destruct j as [|j]; [lia|]. simpl in Hj. destruct i as [|i].
    + injection Hi as ->. rewrite Forall_forall in Hall.
      apply Hall. by eapply list_elem_of_lookup_2.
    + simpl in Hi. apply (IH i j); [lia|done..].
Qed.

(** When the goroutine has received the requests of a sequence of [Record]
    calls, all of them, before the query: [List] returns every one of the
    paths and nothing else, each one once however often it was recorded, in
    ascending byte-wise order; and what it returns is a slice of its own:
    whatever the recorder receives later, the elements of that slice stay
    the same. *)
Lemma List_of_Record_calls (paths : list string) :
  exists l a st',
    sortedList_List (run processRequests (Record_calls paths)) = (l, a, st')
    /\ NoDup l
    /\ (forall p, p ∈ l <-> p ∈ paths)
    /\ (forall i j x y, i < j -> l !! i = Some x -> l !! j = Some y -> String.le x y)
    /\ forall later : list msg, elems (heap (run st' later)) a = l.
Proof.
  destruct (List_snapshot (Record_calls paths)) as (l & a & st' & HL & Hnd & Hin & Hs & Hlater).
  exists l, a, st'. rewrite recorded_Record_calls in Hin.
  repeat (split; [done|]). split; [|done].
  intros i j x y. by apply StronglySorted_lookup.
Qed.

(** The spec's example: "/a", "/a" and "/b" recorded give ["/a"; "/b"]. *)
Example List_example :
  fst (fst (sortedList_List (run processRequests (Record_calls ["/b"; "/a"; "/a"]))))
  = ["/a"; "/b"].
Proof. by vm_compute. Qed.

(** Why the copy matters: the goroutine's own slice, kept from before, reads
    differently once a later request is appended in place and sorted. *)
Example includeList_alias_example :
  let st := run processRequests [Request "/b"; Request "/a"; Query] in
  elems (heap st) (includeList st) = ["/a"; "/b"]
  /\ elems (heap (run st [Request "/0"; Query])) (includeList st) = ["/0"; "/a"].
Proof. split; by vm_compute. Qed.

(** ** Requests that wait in the channel *)

Import Scheduling.

Lemma schedule_snoc ts t : schedule (ts ++ [t]) = schedule_step (schedule ts) t.
Proof. unfold schedule. by rewrite foldl_snoc. Qed.

Lemma sent_snoc ts t :
  sent (ts ++ [t]) = sent ts ++ (if t is Send r then [r] else []).
Proof. unfold sent. rewrite flat_map_app. simpl. by rewrite app_nil_r. Qed.

Lemma requested_snoc ms m :
  requested (ms ++ [m]) = requested ms ++ (if m is Request r then [r] else []).
Proof. unfold requested. rewrite flat_map_app. simpl. by rewrite app_nil_r. Qed.

Lemma no_clear_snoc ts t : no_clear (ts ++ [t]) -> no_clear ts /\ t <> Take_Clear.
Proof. unfold no_clear. intros [H1 H2%Forall_inv]%Forall_app. done. Qed.

(** What a schedule keeps true: the goroutine is where the messages it has
    handled bring it; every path sent was received, in the order of the
    sending, or waits in the channel; the channel holds at most 100; and
    what is recorded was received. *)
Lemma schedule_inv ts : forall s ms,
  schedule ts = Some (s, ms) ->
  goroutine s = run processRequests ms
  /\ sent ts = requested ms ++ requests_chan s
  /\ length (requests_chan s) <= 100
  /\ (forall p, p ∈ recorded ms -> p ∈ requested ms)
  /\ (no_clear ts -> recorded ms = requested ms).
Proof.
  induction ts as [|t ts IH] using rev_ind; intros s ms Hs.
  - injection Hs as <- <-. repeat split; simpl; auto; lia.
  - rewrite schedule_snoc in Hs.
    destruct (schedule ts) as [[s0 ms0]|] eqn:Hs0; [|done].
    destruct (IH s0 ms0 eq_refl) as (Hg & Hsent & Hlen & Hsub & Hnc).
    simpl in Hs. destruct (enabled s0 t) eqn:Hen; [|done].
    injection Hs as <- <-. rewrite sent_snoc.
    destruct t as [r| | | |]; simpl in *.
    + rewrite app_nil_r. apply Nat.ltb_lt in Hen.
      split; [done|]. split; [by rewrite Hsent, app_assoc|].
      split; [rewrite length_app; simpl; lia|]. split; [done|].
      intros [Hts _]%no_clear_snoc. auto.
    + destruct (requests_chan s0) as [|r rest] eqn:Hch; [done|]. simpl in *.
      rewrite run_snoc, recorded_snoc, requested_snoc, app_nil_r, <- Hg.
      split; [done|]. split; [by rewrite Hsent, <- app_assoc|].
      split; [lia|]. split.
      * intros p [Hp|Hp]%elem_of_app; apply elem_of_app; auto.
      * intros [Hts _]%no_clear_snoc. by rewrite (Hnc Hts).
    + rewrite run_snoc, recorded_snoc, requested_snoc, !app_nil_r, <- Hg.
      repeat (split; [done|]). intros [Hts _]%no_clear_snoc. auto.
    + rewrite run_snoc, recorded_snoc, requested_snoc, !app_nil_r, <- Hg.
      repeat (split; [done|]). intros [Hts _]%no_clear_snoc. auto.
    + rewrite run_snoc, recorded_snoc, requested_snoc, !app_nil_r, <- Hg.
      split; [done|]. split; [done|]. split; [done|]. split.
      * intros p Hp. by apply elem_of_nil in Hp.
      * by intros [_ Hne]%no_clear_snoc.
Qed.

(** C3, the claim as stated: a path sent with [f.requests <- "/a"] waits
    in the channel, and the [select] of the goroutine may take the query
    of a [List] first: that [List] returns no path, with one [Record] call
    made.  When the goroutine receives the request first, the path is
    there. *)
Lemma List_before_Receive_counterexample :
  schedule [Send "/a"] = Some (mkSystem ["/a"] processRequests, [])
  /\ sent [Send "/a"] = ["/a"]
  /\ fst (fst (sortedList_List (goroutine (mkSystem ["/a"] processRequests)))) = []
  /\ schedule [Send "/a"; Take_Query]
     = Some (mkSystem ["/a"] (snd (sortedList_List processRequests)), [Query])
  /\ (exists s ms, schedule [Send "/a"; Receive] = Some (s, ms)
        /\ fst (fst (sortedList_List (goroutine s))) = ["/a"]).
Proof.
  split; [by vm_compute|]. split; [done|]. split; [by vm_compute|].
  split; [by vm_compute|].
  eexists _, _. split; [by vm_compute|]. by vm_compute.
Qed.

(** C3 (amended): however the sending of requests, their receipt by the
    goroutine, the queries, the readings of the flag and the clears are
    interleaved, a [List] taken then returns the paths of the requests the
    goroutine has received since the last clear and nothing else, each one
    once however often it was recorded, in ascending byte-wise order, in a
    slice of its own, whose elements stay the same whatever the goroutine
    handles later.  The paths sent are the ones received followed by the
    ones that still wait in the channel, which that [List] does not see:
    it returns only paths that were sent, and with nothing waiting and no
    clear made it returns every path that was sent. *)
Theorem List_of_received_requests (ts : list turn) (s : system) (ms : list msg) :
  schedule ts = Some (s, ms) ->
  exists l a st',
    sortedList_List (goroutine s) = (l, a, st')
    /\ NoDup l
    /\ (forall p, p ∈ l <-> p ∈ recorded ms)
    /\ (forall i j x y, i < j -> l !! i = Some x -> l !! j = Some y -> String.le x y)
    /\ (forall later : list msg, elems (heap (run st' later)) a = l)
    /\ sent ts = requested ms ++ requests_chan s
    /\ (forall p, p ∈ l -> p ∈ sent ts)
    /\ (no_clear ts -> forall p, p ∈ l <-> p ∈ requested ms)
    /\ (no_clear ts -> requests_chan s = [] -> forall p, p ∈ l <-> p ∈ sent ts).
Proof.
  intros Hs. destruct (schedule_inv ts s ms Hs) as (Hg & Hsent & _ & Hsub & Hnc).
  destruct (List_snapshot ms) as (l & a & st' & HL & Hnd & Hin & Hsorted & Hlater).
  exists l, a, st'. rewrite Hg.
  split; [done|]. split; [done|]. split; [done|].
  split; [intros i j x y; by apply StronglySorted_lookup|].
  split; [done|]. split; [done|]. split; [|split].
  - intros p Hp%Hin%Hsub. rewrite Hsent. apply elem_of_app. by left.
  - intros Hts p. by rewrite Hin, (Hnc Hts).
  - intros Hts Hch p. by rewrite Hin, (Hnc Hts), Hsent, Hch, app_nil_r.
Qed.

Lemma List_of_received_requests_witness :
  schedule [Send "/b"; Send "/a"; Receive; Take_Query; Send "/a"; Receive; Send "/c"]
  = Some (mkSystem ["/a"; "/c"]
            (run processRequests [Request "/b"; Query; Request "/a"]),
          [Request "/b"; Query; Request "/a"])
  /\ exists l a st',
       sortedList_List (run processRequests [Request "/b"; Query; Request "/a"])
       = (l, a, st')
       /\ NoDup l
       /\ (forall p, p ∈ l <-> p ∈ ["/b"; "/a"])
       /\ (forall later : list msg, elems (heap (run st' later)) a = l)
       /\ ["/b"; "/a"; "/a"; "/c"] = ["/b"; "/a"] ++ ["/a"; "/c"].
Proof.
  assert (schedule [Send "/b"; Send "/a"; Receive; Take_Query; Send "/a"; Receive; Send "/c"]
          = Some (mkSystem ["/a"; "/c"]
                    (run processRequests [Request "/b"; Query; Request "/a"]),
                  [Request "/b"; Query; Request "/a"])) as Hs by (by vm_compute).
  split; [exact Hs|].
  destruct (List_of_received_requests _ _ _ Hs)
    as (l & a & st' & HL & Hnd & Hin & _ & Hlater & Hsent & _).
  exists l, a, st'. split; [exact HL|]. split; [exact Hnd|].
  split; [exact Hin|]. split; [exact Hlater|]. exact Hsent.
Defined.

Section ClearProps.
Implicit Types (st : state) (ms : list msg).

Lemma changed_step_no_Query st m :
  is_Query m = false -> changed st = true -> changed (fst (step st m)) = true.
Proof.
  intros Hm Hc. destruct m as [r| | |]; [|done..].
  simpl. case_bool_decide; [|done].
  by destruct (append _ _ _ _) as [[??]?].
Qed.

Lemma changed_run_no_Query st ms :
  Forall (fun m => is_Query m = false) ms ->
  changed st = true -> changed (run st ms) = true.
Proof.
  intros Hms Hc. induction ms as [|m ms IH] using rev_ind; [done|].
  apply Forall_app in Hms as [Hms Hm%Forall_inv].
  rewrite run_snoc. apply changed_step_no_Query; auto.
Qed.

Lemma empty_step_no_Request st m :
  is_Request m = false ->
  length_ (includeList st) = 0 -> length_ (includeList (fst (step st m))) = 0.
Proof.
  intros Hm Hl. destruct m as [r| | |]; [done| |done..].
  simpl. unfold make. by destruct (changed st), (length_ (includeList st) =? 0).
Qed.

Lemma empty_run_no_Request st ms :
  Forall (fun m => is_Request m = false) ms ->
  length_ (includeList st) = 0 -> length_ (includeList (run st ms)) = 0.
Proof.
  intros Hms Hl. induction ms as [|m ms IH] using rev_ind; [done|].
  apply Forall_app in Hms as [Hms Hm%Forall_inv].
  rewrite run_snoc. apply empty_step_no_Request; auto.
Qed.

Lemma List_of_empty st :
  length_ (includeList st) = 0 -> fst (fst (sortedList_List st)) = [].
Proof.
  intros Hl. unfold sortedList_List.
  destruct (step_Query_fields st) as (_ & _ & _ & a & Ha & Hla).
  destruct (step st Query) as [st' rep]. simpl in Ha. subst rep. simpl.
  unfold elems. by rewrite Hla, Hl.
Qed.

(** Once the flag is down, lists and consultations of [Changed] keep it
    down. *)
Lemma changed_stays_false st ms :
  Forall (fun m => m = Query \/ m = TakeChanged) ms ->
  changed st = false -> changed (run st ms) = false.
Proof.
  intros Hms Hc. induction ms as [|m ms IH] using rev_ind; [done|].
  apply Forall_app in Hms as [Hms Hm%Forall_inv].
  rewrite run_snoc. specialize (IH Hms).
  destruct Hm as [-> | ->]; [|done].
  by destruct (step_Query_fields (run st ms)) as (_ & _ & ? & _).
Qed.

End ClearProps.

(** C4, the claim as stated, after one recorded path: [Changed] reports
    true, and after a [List], with nothing recorded or cleared in between,
    it reports false. *)
Lemma Changed_after_List_counterexample :
  fst (sortedList_Changed (run processRequests [Request "/a"])) = true
  /\ fst (sortedList_Changed
            (snd (sortedList_List (run processRequests [Request "/a"])))) = false.
Proof. split; by vm_compute. Qed.

Lemma List_keeps_map (st : state) :
  includeMap (snd (sortedList_List st)) = includeMap st
  /\ changed (snd (sortedList_List st)) = false.
Proof.
  unfold sortedList_List.
  destruct (step_Query_fields st) as (_ & Hm & Hc & a & Ha & _).
  destruct (step st Query) as [st' rep]. simpl in *. by subst rep.
Qed.

Lemma quiet_run (st st1 : state) (ms : list msg) :
  includeMap st1 = includeMap st ->
  changed st1 = false ->
  Forall (quiet st) ms ->
  includeMap (run st1 ms) = includeMap st /\ changed (run st1 ms) = false.
Proof.
  intros Hmap Hc Hms. induction ms as [|m ms IH] using rev_ind; [done|].
  apply Forall_app in Hms as [Hms Hm%Forall_inv]. destruct (IH Hms) as [IH1 IH2].
  rewrite run_snoc. destruct Hm as [->|[->|(r & -> & Hr)]].
  - destruct (step_Query_fields (run st1 ms)) as (_ & -> & -> & _). done.
  - done.
  - simpl. rewrite bool_decide_eq_false_2; [done|]. by rewrite IH1, Hr.
Qed.

Lemma Request_unknown_raises (st : state) (r : string) :
  default false (includeMap st !! r) = false ->
  changed (fst (step st (Request r))) = true.
Proof.
  intros Hr. simpl. rewrite bool_decide_eq_true_2 by done.
  by destruct (append _ _ _ _) as [[??]?].
Qed.

(** C4 (amended): [Changed] is a query: it reports the flag and leaves the
    recorder as it is, so the next [List] does what it would have done.
    The flag it reports is the one that gates sorting: a [List] sorts
    exactly when [Changed] would have reported true, every [List] lowers
    the flag, and [Changed] reports false from then on, through further
    lists, readings of the flag and requests for paths already recorded,
    until a path not yet recorded is requested or the recorder is
    cleared, each of which makes it report true. *)
Theorem Changed_reads_the_sort_flag (st : state) :
  sortedList_Changed st = (changed st, st)
  /\ sortedList_List (snd (sortedList_Changed st)) = sortedList_List st
  /\ (wf st ->
      contents (snd (sortedList_List st))
      = if fst (sortedList_Changed st) then merge_sort String.le (contents st)
        else contents st)
  /\ fst (sortedList_Changed (snd (sortedList_List st))) = false
  /\ (forall ms, Forall (fun m => m = Query \/ m = TakeChanged
                                  \/ exists r, m = Request r
                                               /\ default false (includeMap st !! r) = true) ms ->
        fst (sortedList_Changed (run (snd (sortedList_List st)) ms)) = false
        /\ (forall r, default false (includeMap st !! r) = false ->
              fst (sortedList_Changed
                     (fst (step (run (snd (sortedList_List st)) ms) (Request r)))) = true)
        /\ fst (sortedList_Changed
                  (fst (step (run (snd (sortedList_List st)) ms) ClearMsg))) = true).
Proof.
  destruct (List_keeps_map st) as [Hmap Hlow].
  split; [done|]. split; [done|]. split; [|split; [done|]].
  - intros Hwf. destruct (List_spec st Hwf) as (a & st' & -> & -> & _).
    by destruct (step_Query st Hwf) as (a' & _ & _ & _ & Hc & _).
  - intros ms Hms.
    destruct (quiet_run st (snd (sortedList_List st)) ms Hmap Hlow Hms) as [Hm Hc].
    split; [done|]. split; [|done].
    intros r Hr. simpl. apply Request_unknown_raises. by rewrite Hm.
Qed.

Lemma Changed_reads_the_sort_flag_witness :
  wf (run processRequests [Request "/b"; Request "/a"])
  /\ contents (snd (sortedList_List (run processRequests [Request "/b"; Request "/a"])))
     = ["/a"; "/b"]
  /\ Forall (fun m => m = Query \/ m = TakeChanged
                      \/ exists r, m = Request r
                                   /\ default false
                                        (includeMap (run processRequests
                                                       [Request "/b"; Request "/a"]) !! r)
                                      = true)
            [TakeChanged; Request "/a"; Query; Request "/b"; TakeChanged]
  /\ fst (sortedList_Changed
            (run (snd (sortedList_List (run processRequests [Request "/b"; Request "/a"])))
                 [TakeChanged; Request "/a"; Query; Request "/b"; TakeChanged])) = false
  /\ default false (includeMap (run processRequests [Request "/b"; Request "/a"]) !! "/c")
     = false
  /\ fst (sortedList_Changed
            (fst (step (run (snd (sortedList_List
                                    (run processRequests [Request "/b"; Request "/a"])))
                            [TakeChanged; Request "/a"; Query; Request "/b"; TakeChanged])
                       (Request "/c")))) = true.
Proof.
  assert (wf (run processRequests [Request "/b"; Request "/a"])) as Hwf
    by (apply run_wf, processRequests_wf).
  assert (Forall (fun m => m = Query \/ m = TakeChanged
                      \/ exists r, m = Request r
                                   /\ default false
                                        (includeMap (run processRequests
                                                       [Request "/b"; Request "/a"]) !! r)
                                      = true)
            [TakeChanged; Request "/a"; Query; Request "/b"; TakeChanged]) as Hms.
  { apply Forall_cons; split; [by right; left|].
    apply Forall_cons; split.
    { right; right. exists "/a". split; [done|]. by vm_compute. }
    apply Forall_cons; split; [by left|].
    apply Forall_cons; split.
    { right; right. exists "/b". split; [done|]. by vm_compute. }
    apply Forall_cons; split; [by right; left|]. apply Forall_nil_2. }
  assert (default false (includeMap (run processRequests [Request "/b"; Request "/a"]) !! "/c")
          = false) as Hnew by (by vm_compute).
  destruct (Changed_reads_the_sort_flag (run processRequests [Request "/b"; Request "/a"]))
    as (_ & _ & Hsort & _ & Hstay).
  destruct (Hstay _ Hms) as (Hfalse & Hraise & _).
  split; [exact Hwf|]. split; [by rewrite (Hsort Hwf)|].
  split; [exact Hms|]. split; [exact Hfalse|]. split; [exact Hnew|]. exact (Hraise _ Hnew).
Defined.

(** C7, the claim as stated, at [Clear] followed by [List]: the list is
    empty, and [Changed] then reports false, also when consulted again. *)
Lemma Clear_List_Changed_counterexample :
  fst (fst (sortedList_List (sortedList_Clear (run processRequests [Request "/a"])))) = []
  /\ fst (sortedList_Changed
            (snd (sortedList_List
                    (sortedList_Clear (run processRequests [Request "/a"]))))) = false
  /\ fst (sortedList_Changed
            (snd (sortedList_Changed
                    (snd (sortedList_List
                            (sortedList_Clear (run processRequests [Request "/a"]))))))) = false.
Proof. repeat split; by vm_compute. Qed.

(** C7 (amended): after [Clear] the recorder is empty and marked as
    changed: the next [List] returns the empty sequence, and so does every
    [List] until a path is recorded; [Changed] reports true when it is
    consulted next, and until a [List] lowers the flag. *)
Theorem Clear_empties_and_marks (st : state) :
  contents (sortedList_Clear st) = []
  /\ includeMap (sortedList_Clear st) = ∅
  /\ fst (fst (sortedList_List (sortedList_Clear st))) = []
  /\ fst (sortedList_Changed (sortedList_Clear st)) = true
  /\ (forall ms, Forall (fun m => is_Request m = false) ms ->
        fst (fst (sortedList_List (run (sortedList_Clear st) ms))) = [])
  /\ (forall ms, Forall (fun m => is_Query m = false) ms ->
        fst (sortedList_Changed (run (sortedList_Clear st) ms)) = true).
Proof.
  destruct (step_ClearMsg st) as (_ & Hc & Hl & Hm & Hchg).
  split; [done|]. split; [done|].
  split; [by apply List_of_empty|]. split; [done|]. split.
  - intros ms Hms. apply List_of_empty. by apply empty_run_no_Request.
  - intros ms Hms. simpl. by apply changed_run_no_Query.
Qed.

Lemma Clear_empties_and_marks_witness :
  Forall (fun m => is_Request m = false) [Query; TakeChanged; ClearMsg]
  /\ fst (fst (sortedList_List
                 (run (sortedList_Clear (run processRequests [Request "/a"]))
                      [Query; TakeChanged; ClearMsg]))) = []
  /\ Forall (fun m => is_Query m = false) [TakeChanged; Request "/b"]
  /\ fst (sortedList_Changed
            (run (sortedList_Clear (run processRequests [Request "/a"]))
                 [TakeChanged; Request "/b"])) = true.
Proof.
  assert (Forall (fun m => is_Request m = false) [Query; TakeChanged; ClearMsg]) as H1
    by (repeat constructor).
  assert (Forall (fun m => is_Query m = false) [TakeChanged; Request "/b"]) as H2
    by (repeat constructor).
  destruct (Clear_empties_and_marks (run processRequests [Request "/a"]))
    as (_ & _ & _ & _ & HL & HC).
  split; [exact H1|]. split; [exact (HL _ H1)|]. split; [exact H2|]. exact (HC _ H2).
Defined.

(** * Further properties *)

(** ** The inclusion set *)

(** X1: the inclusion set of a concatenated include list is the union of
    the inclusion sets of its parts. *)
Theorem loadIncludeList_app (l1 l2 : list string) :
  loadIncludeList (l1 ++ l2) = loadIncludeList l1 ∪ loadIncludeList l2.
Proof.
  apply set_eq. intros p.
  rewrite elem_of_union, !elem_of_loadIncludeList. split.
  - intros [->|[[?|?]%elem_of_app|(file & [?|?]%elem_of_app & ?)]]; eauto 8.
  - intros [[->|[?|(file & ? & ?)]]|[->|[?|(file & ? & ?)]]]; auto.
    + right; left. apply elem_of_app. auto.
    + right; right. exists file. rewrite elem_of_app. auto.
    + right; left. apply elem_of_app. auto.
    + right; right. exists file. rewrite elem_of_app. auto.
Qed.

(** X2: the inclusion set depends on which paths are listed, not on their
    order nor on how often each is listed. *)
Theorem loadIncludeList_same_paths (l1 l2 : list string) :
  (forall p, p ∈ l1 <-> p ∈ l2) -> loadIncludeList l1 = loadIncludeList l2.
Proof.
  intros Hsame. apply set_eq. intros p.
  rewrite !elem_of_loadIncludeList. setoid_rewrite Hsame. done.
Qed.

Lemma loadIncludeList_same_paths_witness :
  (forall p, p ∈ ["/js/app.js"; "/css/app.css"; "/js/app.js"]
             <-> p ∈ ["/css/app.css"; "/js/app.js"])
  /\ loadIncludeList ["/js/app.js"; "/css/app.css"; "/js/app.js"]
     = loadIncludeList ["/css/app.css"; "/js/app.js"].
Proof.
  assert (forall p, p ∈ ["/js/app.js"; "/css/app.css"; "/js/app.js"]
                    <-> p ∈ ["/css/app.css"; "/js/app.js"]) as Hsame.
  { intros p. rewrite !elem_of_cons, !elem_of_nil. tauto. }
  split; [exact Hsame|]. exact (loadIncludeList_same_paths _ _ Hsame).
Defined.

Lemma has_sep_app_l (a b : string) : has_sep a = true -> has_sep (a +:+ b) = true.
Proof.
  induction a as [|c a IH]; [done|]. rewrite app_cons_s. simpl.
  destruct (Ascii.eqb c "/"%char); auto.
Qed.

(** A member's prefixes that reach beyond its first separator are
    members. *)
Lemma no_gap (l : list string) (p q rest : string) :
  p ∈ loadIncludeList l ->
  p = q +:+ "/" +:+ rest ->
  has_sep q = true ->
  q ∈ loadIncludeList l.
Proof.
  rewrite !elem_of_loadIncludeList. intros Hp E Hq. subst p.
  destruct Hp as [E|[Hin|(file & Hin & _ & r & ->)]].
  - destruct q as [|c q]; [done|]. rewrite app_cons_s in E.
    injection E as -> E. by destruct q.
  - right; right. exists (q +:+ "/" +:+ rest). eauto.
  - right; right. exists ((q +:+ "/" +:+ rest) +:+ "/" +:+ r).
    split; [done|]. split; [done|]. exists (rest +:+ "/" +:+ r).
    by rewrite !app_assoc_s.
Qed.

(** X3: the inclusion set has no gaps: with a path it holds every prefix
    of that path that is cut at a separator and reaches beyond the path's
    first separator, whether the path was listed or added as an
    ancestor. *)
Theorem loadIncludeList_no_gap (l : list string) (p q rest : string) :
  p ∈ loadIncludeList l ->
  p = q +:+ "/" +:+ rest ->
  has_sep q = true ->
  q ∈ loadIncludeList l.
Proof. apply no_gap. Qed.

Lemma loadIncludeList_no_gap_witness :
  "/a/b/c" ∈ loadIncludeList ["/a/b/c/d.js"] /\ "/a/b" ∈ loadIncludeList ["/a/b/c/d.js"].
Proof.
  assert ("/a/b/c" ∈ loadIncludeList ["/a/b/c/d.js"]) as Hin by (by vm_compute).
  split; [exact Hin|].
  exact (loadIncludeList_no_gap ["/a/b/c/d.js"] "/a/b/c" "/a/b" "c" Hin eq_refl eq_refl).
Defined.

(** X4: loading the paths of an inclusion set as an include list gives the
    same inclusion set again: the ancestor closure is idempotent. *)
Theorem loadIncludeList_idempotent (l : list string) :
  loadIncludeList (elements (loadIncludeList l)) = loadIncludeList l.
Proof.
  apply set_eq. intros p. rewrite (elem_of_loadIncludeList (elements _)).
  setoid_rewrite elem_of_elements. split.
  - intros [->|[?|(file & Hin & Hs & rest & ->)]]; [|done|].
    + apply elem_of_loadIncludeList. by left.
    + by eapply no_gap.
  - auto.
Qed.

(** X5: nothing unrelated becomes visible: a member of the inclusion set
    is the root path, or a prefix of a listed path that ends where the
    listed path ends or just before a separator. *)
Theorem loadIncludeList_only_prefixes (l : list string) (p : string) :
  p ∈ loadIncludeList l ->
  p = "/" \/ exists file, file ∈ l /\ is_prefix p file
                          /\ (p = file \/ is_prefix (p +:+ "/") file).
Proof.
  rewrite elem_of_loadIncludeList. intros [->|[Hin|(file & Hin & _ & rest & ->)]].
  - by left.
  - right. exists p. split; [done|]. split; [|by left].
    exists "". clear. induction p as [|c p IH]; [done|]. by rewrite app_cons_s, <- IH.
  - right. exists (p +:+ "/" +:+ rest). split; [done|]. split.
    + by exists ("/" +:+ rest).
    + right. exists rest. by rewrite app_assoc_s.
Qed.

Lemma loadIncludeList_only_prefixes_witness :
  "/css" ∈ loadIncludeList ["/css/app.css"]
  /\ ("/css" = "/" \/ exists file, file ∈ ["/css/app.css"] /\ is_prefix "/css" file
                                   /\ ("/css" = file \/ is_prefix ("/css" +:+ "/") file)).
Proof.
  assert ("/css" ∈ loadIncludeList ["/css/app.css"]) as Hin by (by vm_compute).
  split; [exact Hin|]. exact (loadIncludeList_only_prefixes _ _ Hin).
Defined.

(** ** The overlay in use *)

Section UseProps.
Context `{RS : ResourceStore}.

(** What [Open] does to the [FilterDir], whatever the mode. *)
Lemma Open_FilterDir (f : FilterDir) (name : string) (σ : store) :
  snd (fst (Open f name σ))
  = match fst (Dir_Open (dir f) name σ) with
    | inr _ => f
    | inl _ => if bool_decide (FilterMode f = false)
               then send_request name (startOnce_Do f)
               else loadOnce_Do f
    end.
Proof.
  unfold Open. destruct (Dir_Open (dir f) name σ) as [[h|e] σ']; [|done]. simpl.
  case_bool_decide; [done|]. by case_bool_decide.
Qed.

(** X6: in filter mode nothing is recorded: whatever the store answers,
    [Open] sends nothing on [requests] and does not start the console. *)
Theorem Open_filter_records_nothing (f : FilterDir) (name : string) (σ : store) :
  FilterMode f = true ->
  requests (snd (fst (Open f name σ))) = requests f
  /\ startOnce (snd (fst (Open f name σ))) = startOnce f.
Proof.
  intros Hmode. rewrite Open_FilterDir.
  destruct (fst (Dir_Open (dir f) name σ)); [|done].
  rewrite bool_decide_eq_false_2 by (by rewrite Hmode).
  unfold loadOnce_Do. by destruct (loadOnce f).
Qed.

(** X7: in discovery mode nothing is filtered: [Open] does not load the
    include map, and what it returns is the store's answer, the store's
    file as it is or the store's error, also for a path that the include
    list leaves out. *)
Theorem Open_discovery_filters_nothing (f : FilterDir) (name : string) (σ : store) :
  FilterMode f = false ->
  loadOnce (snd (fst (Open f name σ))) = loadOnce f
  /\ include (snd (fst (Open f name σ))) = include f
  /\ fst (fst (Open f name σ))
     = match fst (Dir_Open (dir f) name σ) with
       | inl file => inl (Plain file)
       | inr err => inr err
       end.
Proof.
  intros Hmode. rewrite Open_FilterDir. unfold Open.
  destruct (Dir_Open (dir f) name σ) as [[h|e] σ']; [|done]. simpl.
  by rewrite bool_decide_eq_true_2.
Qed.

Lemma apply_uses_snoc (f : FilterDir) (σ : store) (us : list use) (u : use) :
  apply_uses f σ (us ++ [u]) = apply_use (apply_uses f σ us) u.
Proof. unfold apply_uses. by rewrite foldl_snoc. Qed.

(** Once the include map is loaded, no use of the overlay changes it. *)
Lemma loaded_stays (f : FilterDir) (σ : store) (us : list use) :
  loadOnce f = true ->
  loadOnce (fst (apply_uses f σ us)) = true
  /\ include (fst (apply_uses f σ us)) = include f.
Proof.
  intros Hl. induction us as [|u us [IH1 IH2]] using rev_ind; [done|].
  rewrite apply_uses_snoc. destruct (apply_uses f σ us) as [f1 σ1]. simpl in *.
  destruct u as [name|l|b]; simpl; [|done..].
  pose proof (Open_FilterDir f1 name σ1) as HO.
  destruct (Open f1 name σ1) as [[res f2] σ2]. simpl in *. subst f2.
  destruct (fst (Dir_Open (dir f1) name σ1)); [|done].
  case_bool_decide; [done|]. unfold loadOnce_Do. by rewrite IH1.
Qed.

(** X8: the inclusion set is built once.  It is the closure of the include
    list as it is at the first filtered [Open] that the store accepts;
    whatever is opened or assigned afterwards, also a new [IncludeList],
    the inclusion set stays that one. *)
Theorem InclusionSet_built_once
    (f : FilterDir) (name : string) (σ : store) (file : HttpFile) (us : list use) :
  FilterMode f = true ->
  loadOnce f = false ->
  fst (Dir_Open (dir f) name σ) = inl file ->
  InclusionSet (fst (apply_uses (snd (fst (Open f name σ))) (snd (Open f name σ)) us))
  = loadIncludeList (IncludeList f).
Proof.
  intros Hmode Hl Hopen. rewrite Open_FilterDir, Hopen.
  rewrite bool_decide_eq_false_2 by (by rewrite Hmode).
  assert (loadOnce (loadOnce_Do f) = true) as Hl' by (unfold loadOnce_Do; by rewrite Hl).
  destruct (loaded_stays (loadOnce_Do f) (snd (Open f name σ)) us Hl') as [H1 H2].
  unfold InclusionSet. unfold loadOnce_Do at 1. rewrite H1, H2.
  unfold loadOnce_Do. by rewrite Hl.
Qed.

(** The root path is in the include map whenever the map is loaded. *)
Lemma root_loaded (d : string) (opt : Options) (σ : store) (us : list use) :
  loadOnce (fst (apply_uses (New d opt) σ us)) = true ->
  "/" ∈ include (fst (apply_uses (New d opt) σ us)).
Proof.
  induction us as [|u us IH] using rev_ind; [done|].
  rewrite apply_uses_snoc. destruct (apply_uses (New d opt) σ us) as [f1 σ1]. simpl in *.
  destruct u as [name|l|b]; simpl; [|done..].
  pose proof (Open_FilterDir f1 name σ1) as HO.
  destruct (Open f1 name σ1) as [[res f2] σ2]. simpl in *. subst f2.
  destruct (fst (Dir_Open (dir f1) name σ1)); [|done].
  case_bool_decide; [done|]. unfold loadOnce_Do.
  destruct (loadOnce f1); [auto|]. simpl. intros _.
  apply elem_of_loadIncludeList. by left.
Qed.

(** X9: the root is never filtered away.  However an overlay made by [New]
    has been used, and whatever its include list holds, a filtered
    [Open("/")] returns the root whenever the store opens it. *)
Theorem Open_root_never_vetoed
    (d : string) (opt : Options) (σ0 : store) (us : list use) (σ : store) (file : HttpFile) :
  FilterMode (fst (apply_uses (New d opt) σ0 us)) = true ->
  fst (Dir_Open (dir (fst (apply_uses (New d opt) σ0 us))) "/" σ) = inl file ->
  fst (fst (Open (fst (apply_uses (New d opt) σ0 us)) "/" σ))
  = inl (Filtered (mkFile file "/" (InclusionSet (fst (apply_uses (New d opt) σ0 us))))).
Proof.
  intros Hmode Hopen. pose proof (root_loaded d opt σ0 us) as Hroot.
  set (f := fst (apply_uses (New d opt) σ0 us)) in *.
  assert ("/" ∈ InclusionSet f) as Hin.
  { unfold InclusionSet, loadOnce_Do. destruct (loadOnce f); [by apply Hroot|].
    simpl. apply elem_of_loadIncludeList. by left. }
  rewrite (Open_filter_member f "/" σ Hmode Hin).
  by destruct (Dir_Open (dir f) "/" σ) as [[h|e] σ']; simplify_eq/=.
Qed.

End UseProps.

Lemma Open_filter_records_nothing_witness :
  FilterMode (filtering ["/css/app.css"]) = true
  /\ requests (snd (fst (Open (RS := gui) (filtering ["/css/app.css"]) "/css/app.css" [])))
     = []
  /\ startOnce (snd (fst (Open (RS := gui) (filtering ["/css/app.css"]) "/css/app.css" [])))
     = false.
Proof.
  split; [reflexivity|].
  exact (Open_filter_records_nothing (RS := gui) (filtering ["/css/app.css"])
           "/css/app.css" [] eq_refl).
Defined.

Lemma Open_discovery_filters_nothing_witness :
  FilterMode (set_IncludeList ["/css/app.css"] (New "gui" (mkOptions "" "" "" "" "" "" "")))
  = false
  /\ fst (fst (Open (RS := gui)
                 (set_IncludeList ["/css/app.css"] (New "gui" (mkOptions "" "" "" "" "" "" "")))
                 "/img/logo.png" []))
     = inl (Plain (RS := gui) 0).
Proof.
  split; [reflexivity|].
  exact (proj2 (proj2 (Open_discovery_filters_nothing (RS := gui)
           (set_IncludeList ["/css/app.css"] (New "gui" (mkOptions "" "" "" "" "" "" "")))
           "/img/logo.png" [] eq_refl))).
Defined.

Lemma InclusionSet_built_once_witness :
  FilterMode (filtering ["/css/app.css"]) = true
  /\ loadOnce (filtering ["/css/app.css"]) = false
  /\ fst (Dir_Open (ResourceStore := gui) (dir (filtering ["/css/app.css"])) "/" []) = inl 0
  /\ InclusionSet
       (fst (apply_uses (RS := gui)
               (snd (fst (Open (RS := gui) (filtering ["/css/app.css"]) "/" [])))
               (snd (Open (RS := gui) (filtering ["/css/app.css"]) "/" []))
               [Use_IncludeList ["/img/logo.png"]; Use_Open "/img/logo.png"]))
     = loadIncludeList ["/css/app.css"].
Proof.
  split; [reflexivity|]. split; [reflexivity|]. split; [reflexivity|].
  exact (InclusionSet_built_once (RS := gui) (filtering ["/css/app.css"]) "/" [] 0
           [Use_IncludeList ["/img/logo.png"]; Use_Open "/img/logo.png"]
           eq_refl eq_refl eq_refl).
Defined.

Lemma Open_root_never_vetoed_witness :
  FilterMode (fst (apply_uses (RS := gui) (New "gui" (mkOptions "" "" "" "" "" "" "")) []
                     [Use_Open "/css/app.css"; Use_FilterMode true])) = true
  /\ fst (fst (Open (RS := gui)
                 (fst (apply_uses (RS := gui) (New "gui" (mkOptions "" "" "" "" "" "" "")) []
                         [Use_Open "/css/app.css"; Use_FilterMode true]))
                 "/" [[]]))
     = inl (Filtered (mkFile (RS := gui) 1 "/" {[ "/" ]})).
Proof.
  split; [reflexivity|].
  rewrite (Open_root_never_vetoed (RS := gui) "gui" (mkOptions "" "" "" "" "" "" "") []
             [Use_Open "/css/app.css"; Use_FilterMode true] [[]] 1 eq_refl eq_refl).
  by vm_compute.
Defined.

(** ** Listings *)

Lemma has_sep_middle (a b : string) : has_sep (a +:+ "/" +:+ b) = true.
Proof.
  induction a as [|c a IH]; [done|]. rewrite app_cons_s. simpl.
  by rewrite IH, orb_true_r.
Qed.

Section ListingProps.
Context `{RS : ResourceStore}.

(** X10: on a [File] whose stored name is not empty, [Readdir] asks the
    store once, with the same count, and returns the store's entries whose
    full path is in the include map, in the store's order, together with
    the store's error, whatever was dropped. *)
Theorem Readdir_filters_listing (f : File) (count : Z) (σ : store) :
  File_name f <> "" ->
  exists f',
    Readdir f count σ
    = Return ((List.filter (fun i => bool_decide (full_path (File_name f) i ∈ File_include f))
                           (fst (fst (File_Readdir (File_File f) count σ))),
               snd (fst (File_Readdir (File_File f) count σ))),
              f', snd (File_Readdir (File_File f) count σ)).
Proof. intros Hne. eexists. by apply Readdir_Return. Qed.

(** What a filtered [Open] that succeeds gives. *)
Lemma Open_Filtered_inv (f f' : FilterDir) (name : string) (σ σ' : store) (file : File) :
  Open f name σ = (inl (Filtered file), f', σ') ->
  FilterMode f' = true /\ loadOnce f' = true
  /\ File_name file = name /\ File_include file = include f'
  /\ name ∈ include f'.
Proof.
  unfold Open. destruct (Dir_Open (dir f) name σ) as [[h|e] σ1]; [|done].
  case_bool_decide as Hm; [done|]. case_bool_decide as Hin; [|done].
  intros [= <- <- <-]. simpl.
  assert (FilterMode f = true) as Hmode by (by destruct (FilterMode f)).
  unfold loadOnce_Do in *. destruct (loadOnce f) eqn:Hl; simpl; by rewrite ?Hl.
Qed.

(** A filtered [Open] of a path outside the include map. *)
Lemma Open_filter_outside (f : FilterDir) (name : string) (σ : store) :
  FilterMode f = true ->
  name ∉ InclusionSet f ->
  fst (fst (Open f name σ))
  = match fst (Dir_Open (dir f) name σ) with
    | inl _ => inr ErrNotExist
    | inr err => inr err
    end.
Proof.
  intros Hmode Hnot. unfold Open.
  destruct (Dir_Open (dir f) name σ) as [[h|e] σ1]; [|done]. simpl.
  rewrite bool_decide_eq_false_2 by (by rewrite Hmode).
  by rewrite bool_decide_eq_false_2.
Qed.

(** X11: the listing and the lookup agree, at the first listing of a
    directory opened under a name that is not empty.  When the filter
    opens a directory under such a name, the first [Readdir] on the [File]
    it gives returns, and an entry of the store's listing is among what it
    returns exactly when the overlay does not veto a later [Open] of the
    entry's full path.  (A [File] opened under the empty name, and the
    root after its first [Readdir], make [Readdir] panic instead: C5 and
    C9.) *)
Theorem Readdir_agrees_with_Open
    (f f' : FilterDir) (parent : string) (σ σ' : store) (file : File)
    (count : Z) (i : FileInfo) :
  Open f parent σ = (inl (Filtered file), f', σ') ->
  parent <> "" ->
  i ∈ fst (fst (File_Readdir (File_File file) count σ')) ->
  exists r file' σ'',
    Readdir file count σ' = Return (r, file', σ'')
    /\ (i ∈ fst r <-> full_path parent i ∈ InclusionSet f')
    /\ (i ∈ fst r -> forall σ3,
          fst (fst (Open f' (full_path parent i) σ3))
          = match fst (Dir_Open (dir f') (full_path parent i) σ3) with
            | inl h => inl (Filtered (mkFile h (full_path parent i) (InclusionSet f')))
            | inr err => inr err
            end)
    /\ (i ∉ fst r -> forall σ3,
          fst (fst (Open f' (full_path parent i) σ3))
          = match fst (Dir_Open (dir f') (full_path parent i) σ3) with
            | inl _ => inr ErrNotExist
            | inr err => inr err
            end).
Proof.
  intros HOpen Hparent Hi.
  destruct (Open_Filtered_inv _ _ _ _ _ _ HOpen) as (Hmode & Hl & Hname & Hinc & _).
  assert (InclusionSet f' = include f') as HIS
    by (unfold InclusionSet, loadOnce_Do; by rewrite Hl).
  assert (File_name file <> "") as Hne by (by rewrite Hname).
  eexists _, _, _. split; [by apply Readdir_Return|]. simpl.
  assert (i ∈ List.filter (visible (File_include file) (File_name file))
                (fst (fst (File_Readdir (File_File file) count σ')))
          <-> full_path parent i ∈ InclusionSet f') as Hiff.
  { rewrite list_elem_of_In, filter_In, <- list_elem_of_In.
    unfold visible. rewrite bool_decide_eq_true, Hname, Hinc, HIS. tauto. }
  split; [done|]. split.
  - intros Hshown σ3. apply Hiff in Hshown.
    rewrite (Open_filter_member f' _ σ3 Hmode Hshown).
    by destruct (Dir_Open (dir f') (full_path parent i) σ3) as [[h|e] σ4].
  - intros Hshown σ3. rewrite Hiff in Hshown.
    by apply Open_filter_outside.
Qed.

(** X12: the way to a listed path is not cut, on a [File] whose stored name
    is not empty.  With the include map loaded from a list, [Readdir] on
    such a [File] returns, and shows every entry that the store lists and
    that is a listed path or leads to one.  (For the root this is the
    first [Readdir] only: it leaves the empty name behind, and the next
    one panics, C5 and C9.) *)
Theorem Readdir_shows_the_way
    (l : list string) (f : File) (count : Z) (σ : store) (i : FileInfo)
    (listed rest : string) :
  File_include f = loadIncludeList l ->
  File_name f <> "" ->
  i ∈ fst (fst (File_Readdir (File_File f) count σ)) ->
  listed ∈ l ->
  listed = full_path (File_name f) i
  \/ listed = full_path (File_name f) i +:+ "/" +:+ rest ->
  exists r f' σ', Readdir f count σ = Return (r, f', σ') /\ i ∈ fst r.
Proof.
  intros Hinc Hne Hi Hin Hway. eexists _, _, _.
  split; [by apply Readdir_Return|]. simpl.
  rewrite list_elem_of_In, filter_In, <- list_elem_of_In. split; [done|].
  unfold visible. rewrite bool_decide_eq_true, Hinc, elem_of_loadIncludeList.
  right. destruct Hway as [<-| ->]; [by left|].
  right. exists (full_path (File_name f) i +:+ "/" +:+ rest).
  split; [done|]. split; [apply has_sep_middle|by exists rest].
Qed.

End ListingProps.

Lemma Readdir_filters_listing_witness :
  "/css" <> ""
  /\ exists f',
       Readdir (RS := gui) (mkFile (RS := gui) 0 "/css" {[ "/"; "/css"; "/css/app.css" ]})
               0 [[mkFileInfo "app.css" false]]
       = Return (([mkFileInfo "app.css" false], None), f', [[]]).
Proof.
  split; [done|].
  exact (Readdir_filters_listing (RS := gui)
           (mkFile (RS := gui) 0 "/css" {[ "/"; "/css"; "/css/app.css" ]})
           0 [[mkFileInfo "app.css" false]] ltac:(done)).
Defined.

Lemma Readdir_agrees_with_Open_witness :
  Open (RS := gui) (filtering ["/css/app.css"]) "/" []
  = (inl (Filtered (mkFile (RS := gui) 0 "/" {[ "/"; "/css"; "/css/app.css" ]})),
     loadOnce_Do (filtering ["/css/app.css"]),
     [[mkFileInfo "css" true; mkFileInfo "img" true]])
  /\ "/" <> ""
  /\ mkFileInfo "img" true ∈ [mkFileInfo "css" true; mkFileInfo "img" true]
  /\ exists r file' σ'',
       Readdir (RS := gui) (mkFile (RS := gui) 0 "/" {[ "/"; "/css"; "/css/app.css" ]}) 0
               [[mkFileInfo "css" true; mkFileInfo "img" true]]
       = Return (r, file', σ'')
       /\ (mkFileInfo "img" true ∈ fst r
           <-> "/img" ∈ InclusionSet (loadOnce_Do (filtering ["/css/app.css"]))).
Proof.
  assert (Open (RS := gui) (filtering ["/css/app.css"]) "/" []
          = (inl (Filtered (mkFile (RS := gui) 0 "/" {[ "/"; "/css"; "/css/app.css" ]})),
             loadOnce_Do (filtering ["/css/app.css"]),
             [[mkFileInfo "css" true; mkFileInfo "img" true]])) as HO by (by vm_compute).
  assert ("/" <> "") as Hne by done.
  assert (mkFileInfo "img" true ∈ [mkFileInfo "css" true; mkFileInfo "img" true]) as Hi
    by (right; left).
  split; [exact HO|]. split; [exact Hne|]. split; [exact Hi|].
  destruct (Readdir_agrees_with_Open (RS := gui) _ _ _ _ _ _ 0
              (mkFileInfo "img" true) HO Hne Hi) as (r & file' & σ'' & HR & Hiff & _).
  exists r, file', σ''. split; [exact HR|exact Hiff].
Defined.

Lemma Readdir_shows_the_way_witness :
  exists r f' σ',
    Readdir (RS := gui) (mkFile (RS := gui) 0 "/" (loadIncludeList ["/css/app.css"])) 0
            [[mkFileInfo "css" true; mkFileInfo "img" true]]
    = Return (r, f', σ')
    /\ mkFileInfo "css" true ∈ fst r.
Proof.
  refine (Readdir_shows_the_way (RS := gui) ["/css/app.css"]
            (mkFile (RS := gui) 0 "/" (loadIncludeList ["/css/app.css"])) 0
            [[mkFileInfo "css" true; mkFileInfo "img" true]] (mkFileInfo "css" true)
            "/css/app.css" "app.css" eq_refl _ _ _ _).
  - done.
  - left.
  - left.
  - by right.
Defined.

(** ** The recorder in use *)

Section RecorderUse.
Implicit Types (st : state) (ms : list msg).

(** [List] in a well-formed state, step by step. *)
Lemma List_unfold st :
  wf st ->
  exists a,
    sortedList_List st = (contents (fst (step st Query)), a, fst (step st Query))
    /\ ptr a = (if length_ (includeList st) =? 0 then zerobase else next st)
    /\ contents (fst (step st Query))
       = (if changed st then merge_sort String.le (contents st) else contents st)
    /\ wf (fst (step st Query))
    /\ includeList (fst (step st Query)) = includeList st
    /\ changed (fst (step st Query)) = false
    /\ next (fst (step st Query))
       = (if length_ (includeList st) =? 0 then next st else S (next st))
    /\ length_ a = length_ (includeList st).
Proof.
  intros Hwf.
  destruct (step_Query st Hwf)
    as (a & Ha & Hptr & Hwf' & Hc & He & Hil & _ & Hch & Hnext & Hla & _).
  exists a. unfold sortedList_List. destruct (step st Query) as [st' rep].
  simpl in *. subst rep. by rewrite He.
Qed.

(** The list after any messages, in closed form. *)
Lemma List_closed ms :
  fst (fst (sortedList_List (run processRequests ms)))
  = merge_sort String.le (remove_dups (recorded ms)).
Proof.
  destruct (List_snapshot ms) as (l & a & st' & -> & Hnd & Hin & Hs & _). simpl.
  apply sorted_arrangement_unique; [|by apply StronglySorted_Sorted].
  apply NoDup_Permutation; [done|apply NoDup_remove_dups|].
  intros p. by rewrite elem_of_remove_dups.
Qed.

Lemma known_path_noop ms r :
  r ∈ recorded ms ->
  step (run processRequests ms) (Request r) = (run processRequests ms, NoReply).
Proof.
  intros Hr. destruct (run_Inv ms) as [_ (_ & Hmap & _ & Hrec)].
  apply Hrec, Hmap in Hr. simpl. rewrite bool_decide_eq_false_2; [done|].
  by rewrite Hr.
Qed.

End RecorderUse.

(** X13: whatever the recorder has received, requests, queries, readings
    of the flag and clears in any order, [List] returns the paths requested
    since the last clear, without duplicates, sorted. *)
Theorem List_is_sorted_set_of_recorded (ms : list msg) :
  fst (fst (sortedList_List (run processRequests ms)))
  = merge_sort String.le (remove_dups (recorded ms)).
Proof. apply List_closed. Qed.

(** X14: a request for a path that is already recorded changes nothing in
    the recorder: no element, no flag, no array. *)
Theorem Request_known_path_is_noop (ms : list msg) (r : string) :
  r ∈ recorded ms ->
  step (run processRequests ms) (Request r) = (run processRequests ms, NoReply).
Proof. apply known_path_noop. Qed.

Lemma Request_known_path_is_noop_witness :
  "/a" ∈ recorded [Request "/a"; Query; Request "/b"]
  /\ step (run processRequests [Request "/a"; Query; Request "/b"]) (Request "/a")
     = (run processRequests [Request "/a"; Query; Request "/b"], NoReply).
Proof.
  assert ("/a" ∈ recorded [Request "/a"; Query; Request "/b"]) as Hr by (by left).
  split; [exact Hr|]. exact (Request_known_path_is_noop _ _ Hr).
Defined.

(** X15: a request for a path not recorded since the last clear puts the
    path behind the elements already there and raises the flag. *)
Theorem Request_new_path_appends (ms : list msg) (r : string) :
  r ∉ recorded ms ->
  contents (run processRequests (ms ++ [Request r])) = contents (run processRequests ms) ++ [r]
  /\ changed (run processRequests (ms ++ [Request r])) = true.
Proof.
  intros Hr. destruct (run_Inv ms) as [Hwf (_ & Hmap & _ & Hrec)].
  rewrite run_snoc. pose proof (step_Request _ r Hwf) as H.
  rewrite bool_decide_eq_true_2 in H; [by destruct H as (_ & ? & _ & ?)|].
  destruct (default false (includeMap (run processRequests ms) !! r)) eqn:E; [|done].
  exfalso. apply Hr, Hrec, Hmap. done.
Qed.

Lemma Request_new_path_appends_witness :
  ("/a" ∉ recorded [Request "/b"; Query; Request "/c"])
  /\ contents (run processRequests ([Request "/b"; Query; Request "/c"] ++ [Request "/a"]))
     = ["/b"; "/c"; "/a"].
Proof.
  assert ("/a" ∉ recorded [Request "/b"; Query; Request "/c"]) as Hr.
  { change (recorded [Request "/b"; Query; Request "/c"]) with ["/b"; "/c"].
    rewrite !not_elem_of_cons. split; [done|]. split; [done|]. apply not_elem_of_nil. }
  split; [exact Hr|].
  rewrite (proj1 (Request_new_path_appends _ _ Hr)). by vm_compute.
Defined.

(** X16: what the recorder keeps true of its variables after any
    messages: the slice has no duplicates, the map holds true exactly for
    the paths in the slice, and the slice is sorted whenever the flag is
    down, so that a [List] which skips the sort still returns a sorted
    copy. *)
Theorem recorder_invariant (ms : list msg) :
  NoDup (contents (run processRequests ms))
  /\ (forall r, includeMap (run processRequests ms) !! r = Some true
                <-> r ∈ contents (run processRequests ms))
  /\ (forall r, includeMap (run processRequests ms) !! r <> Some false)
  /\ (changed (run processRequests ms) = false ->
      StronglySorted String.le (contents (run processRequests ms))).
Proof.
  assert (forall r, includeMap (run processRequests ms) !! r <> Some false) as Htrue.
  { induction ms as [|m ms IH] using rev_ind; intros r.
    - change (includeMap (run processRequests [])) with (∅ : gmap string bool).
      by rewrite lookup_empty.
    - rewrite run_snoc. destruct (run_Inv ms) as [Hwf _]. destruct m as [r'| | |].
      + pose proof (step_Request _ r' Hwf) as H. case_bool_decide.
        * destruct H as (_ & _ & -> & _).
          destruct (decide (r' = r)) as [->|Hne];
            [by rewrite lookup_insert_eq | by rewrite lookup_insert_ne].
        * by rewrite H.
      + destruct (step_Query _ Hwf) as (a & _ & _ & _ & _ & _ & _ & -> & _). apply IH.
      + apply IH.
      + destruct (step_ClearMsg (run processRequests ms)) as (_ & _ & _ & -> & _).
        by rewrite lookup_empty. }
  destruct (run_Inv ms) as [_ (Hnd & Hmap & Hsort & _)].
  split; [done|]. split; [|split; [done|done]].
  intros r. rewrite <- Hmap. specialize (Htrue r).
  destruct (includeMap (run processRequests ms) !! r) as [[]|]; simpl; split; done.
Qed.

(** X17: every [List] of a recorder that holds a path returns a slice of
    its own.  With something recorded, two lists in a row return the same
    elements, at least one, in two different arrays, neither of them the
    array the recorder works on. *)
Theorem List_twice_fresh (ms : list msg) :
  recorded ms <> [] ->
  exists l a1 st1 a2 st2,
    sortedList_List (run processRequests ms) = (l, a1, st1)
    /\ sortedList_List st1 = (l, a2, st2)
    /\ l <> []
    /\ ptr a1 <> ptr a2
    /\ ptr a1 <> ptr (includeList st2)
    /\ ptr a2 <> ptr (includeList st2).
Proof.
  intros Hrec.
  destruct (run_Inv ms) as [Hwf (_ & _ & _ & Hin)].
  assert ((length_ (includeList (run processRequests ms)) =? 0) = false) as Hpos.
  { apply Nat.eqb_neq. intros E.
    destruct (recorded ms) as [|p ps]; [done|].
    assert (p ∈ contents (run processRequests ms)) as Hp by (apply Hin; left).
    unfold contents, elems in Hp. rewrite E in Hp. by apply elem_of_nil in Hp. }
  destruct (List_unfold _ Hwf) as (a1 & HL1 & Hp1 & Hc1 & Hwf1 & Hil1 & Hch1 & Hn1 & Hla1).
  destruct (List_unfold _ Hwf1) as (a2 & HL2 & Hp2 & Hc2 & Hwf2 & Hil2 & Hch2 & Hn2 & Hla2).
  rewrite Hch1 in Hc2. rewrite Hc2 in HL2.
  rewrite Hil1, Hpos in Hp2. rewrite Hpos in Hp1, Hn1.
  eexists _, a1, _, a2, _. split; [exact HL1|]. split; [exact HL2|].
  split.
  { intros E. apply Nat.eqb_neq in Hpos. apply Hpos.
    rewrite <- Hil1, <- (length_elems (heap (fst (step (run processRequests ms) Query))))
      by apply Hwf1.
    fold (contents (fst (step (run processRequests ms) Query))). by rewrite E. }
  rewrite Hil2, Hil1, Hp1, Hp2, Hn1. destruct Hwf as [Hptr _].
  repeat split; lia.
Qed.

Lemma List_twice_fresh_witness :
  recorded [Request "/b"; ClearMsg; Request "/a"] <> []
  /\ exists l a1 st1 a2 st2,
       sortedList_List (run processRequests [Request "/b"; ClearMsg; Request "/a"])
       = (l, a1, st1)
       /\ sortedList_List st1 = (l, a2, st2)
       /\ l <> []
       /\ ptr a1 <> ptr a2
       /\ ptr a1 <> ptr (includeList st2)
       /\ ptr a2 <> ptr (includeList st2).
Proof.
  assert (recorded [Request "/b"; ClearMsg; Request "/a"] <> []) as H by done.
  split; [exact H|]. exact (List_twice_fresh _ H).
Defined.

(** With nothing recorded, the two slices have no elements and both point
    to [zerobase]: the addresses do not tell them apart. *)
Example List_of_nothing_at_zerobase :
  fst (sortedList_List processRequests) = ([], mkSlice zerobase 0)
  /\ fst (sortedList_List (snd (sortedList_List processRequests)))
     = ([], mkSlice zerobase 0).
Proof. split; by vm_compute. Qed.

(** The flag after one message that is not a query. *)
Lemma changed_step_news (ms : list msg) (m : msg) :
  is_Query m = false ->
  changed (run processRequests (ms ++ [m]))
  = match m with
    | Request r => if bool_decide (r ∈ recorded ms) then changed (run processRequests ms)
                   else true
    | ClearMsg => true
    | _ => changed (run processRequests ms)
    end.
Proof.
  intros Hm. rewrite run_snoc. destruct m as [r| | |]; [|done..].
  case_bool_decide as Hr.
  - by rewrite (known_path_noop ms r Hr).
  - destruct (run_Inv ms) as [Hwf (_ & Hmap & _ & Hrec)].
    pose proof (step_Request _ r Hwf) as H.
    rewrite bool_decide_eq_true_2 in H; [by destruct H as (_ & _ & _ & ?)|].
    destruct (default false (includeMap (run processRequests ms) !! r)) eqn:E; [|done].
    exfalso. apply Hr, Hrec, Hmap. done.
Qed.

(** X18: what [Changed] reports.  From a moment when the flag is down, at
    the start or right after a [List], and as long as no [List] follows,
    the flag is up exactly when since that moment the recorder was cleared
    or received a path that was not recorded at the time. *)
Theorem Changed_iff_news (ms post : list msg) :
  changed (run processRequests ms) = false ->
  Forall (fun m => is_Query m = false) post ->
  (fst (sortedList_Changed (run processRequests (ms ++ post))) = true
   <-> exists i m, post !! i = Some m
                   /\ (m = ClearMsg
                       \/ exists r, m = Request r /\ r ∉ recorded (ms ++ take i post))).
Proof.
  intros Hdown Hpost. simpl.
  induction post as [|m post IH] using rev_ind.
  - rewrite app_nil_r, Hdown. split; [done|]. by intros (i & m & ? & _).
  - apply Forall_app in Hpost as [Hpost Hm%Forall_inv]. specialize (IH Hpost).
    rewrite app_assoc, changed_step_news by done.
    assert (forall i m', i < length post ->
              ((post ++ [m]) !! i = Some m' <-> post !! i = Some m')
              /\ take i (post ++ [m]) = take i post) as Hold.
    { intros i m' Hi. split; [by rewrite lookup_app_l|].
      rewrite take_app_le; [done|lia]. }
    assert ((exists i m', (post ++ [m]) !! i = Some m'
               /\ (m' = ClearMsg
                   \/ exists r, m' = Request r /\ r ∉ recorded (ms ++ take i (post ++ [m]))))
            <-> (exists i m', post !! i = Some m'
                   /\ (m' = ClearMsg
                       \/ exists r, m' = Request r /\ r ∉ recorded (ms ++ take i post)))
                \/ m = ClearMsg
                \/ exists r, m = Request r /\ r ∉ recorded (ms ++ post)) as Hsplit.
    { split.
      - intros (i & m' & Hi & Hn).
        destruct (decide (i < length post)) as [Hlt|Hge].
        + left. exists i, m'. destruct (Hold i m' Hlt) as [H1 H2].
          rewrite <- H2. split; [by apply H1|done].
        + right. assert (i = length post) as ->.
          { apply lookup_lt_Some in Hi. rewrite length_app in Hi. simpl in Hi. lia. }
          rewrite list_lookup_middle in Hi by done. injection Hi as <-.
          by rewrite take_app_length in Hn.
      - intros [(i & m' & Hi & Hn)|Hlast].
        + assert (i < length post) as Hlt by (by eapply lookup_lt_Some).
          exists i, m'. destruct (Hold i m' Hlt) as [H1 H2].
          rewrite H2. split; [by apply H1|done].
        + exists (length post), m. rewrite list_lookup_middle by done.
          split; [done|]. by rewrite take_app_length. }
    rewrite Hsplit. clear Hsplit Hold. destruct m as [r| | |]; [|done| |].
    + case_bool_decide as Hr.
      * rewrite IH. split; [auto|]. intros [?|[?|(r' & [= <-] & ?)]]; done.
      * split; [|done]. intros _. right; right. by exists r.
    + rewrite IH. split; [auto|]. intros [?|[?|(r' & ? & ?)]]; done.
    + split; [|done]. intros _. right. by left.
Qed.

Lemma Changed_iff_news_witness :
  changed (run processRequests [Request "/a"; Query]) = false
  /\ Forall (fun m => is_Query m = false) [Request "/a"; TakeChanged]
  /\ (fst (sortedList_Changed
             (run processRequests ([Request "/a"; Query] ++ [Request "/a"; TakeChanged])))
      = true
      <-> exists i m, [Request "/a"; TakeChanged] !! i = Some m
                      /\ (m = ClearMsg
                          \/ exists r, m = Request r
                                       /\ r ∉ recorded ([Request "/a"; Query]
                                                        ++ take i [Request "/a"; TakeChanged]))).
Proof.
  assert (changed (run processRequests [Request "/a"; Query]) = false) as H1
    by (by vm_compute).
  assert (Forall (fun m => is_Query m = false) [Request "/a"; TakeChanged]) as H2
    by (repeat constructor).
  split; [exact H1|]. split; [exact H2|]. exact (Changed_iff_news _ _ H1 H2).
Defined.

(** ** From the overlay to the recorder *)

Section Discovery.
Context `{RS : ResourceStore}.

(** In discovery mode the channel receives, in order, the names that the
    store opened. *)
Lemma requests_after_opens (names : list string) (f : FilterDir) (σ : store) :
  FilterMode f = false ->
  requests (fst (apply_uses f σ (Use_Open <$> names)))
  = requests f ++ opened_names (dir f) names σ.
Proof.
  revert f σ. induction names as [|name names IH]; intros f σ Hmode.
  - simpl. by rewrite app_nil_r.
  - unfold apply_uses in *. simpl. unfold Open.
    destruct (Dir_Open (dir f) name σ) as [[h|e] σ1]; simpl.
    + rewrite bool_decide_eq_true_2 by done.
      rewrite IH by done. simpl. by rewrite <- app_assoc.
    + by rewrite IH.
Qed.

(** X19: discovery, end to end.  After any sequence of [Open] calls in
    discovery mode, once the recorder has received what was sent on the
    channel, [List] returns the names that the store opened, each once,
    sorted; a name the store failed to open is listed only if another
    [Open] of it succeeded. *)
Theorem discovery_lists_opened_names (f : FilterDir) (σ : store) (names : list string) :
  FilterMode f = false ->
  requests f = [] ->
  fst (fst (sortedList_List
              (run processRequests
                   (Record_calls (requests (fst (apply_uses f σ (Use_Open <$> names))))))))
  = merge_sort String.le (remove_dups (opened_names (dir f) names σ)).
Proof.
  intros Hmode Hempty.
  by rewrite requests_after_opens, Hempty, List_closed, recorded_Record_calls.
Qed.

End Discovery.

Lemma discovery_lists_opened_names_witness :
  FilterMode (New "gui" (mkOptions "" "" "" "" "" "" "")) = false
  /\ requests (New "gui" (mkOptions "" "" "" "" "" "" "")) = []
  /\ fst (fst (sortedList_List
                 (run processRequests
                      (Record_calls
                         (requests
                            (fst (apply_uses (RS := gui)
                                    (New "gui" (mkOptions "" "" "" "" "" "" "")) []
                                    (Use_Open <$> ["/img/logo.png"; "/secret"; "/css/app.css";
                                                   "/img/logo.png"]))))))))
     = ["/css/app.css"; "/img/logo.png"].
Proof.
  split; [reflexivity|]. split; [reflexivity|].
  rewrite (discovery_lists_opened_names (RS := gui)
             (New "gui" (mkOptions "" "" "" "" "" "" "")) []
             ["/img/logo.png"; "/secret"; "/css/app.css"; "/img/logo.png"]
             eq_refl eq_refl).
  by vm_compute.
Defined.

(** ** Options in use *)

(** X20: [fillMissing] is idempotent: options that went through it once
    are left as they are by a second pass. *)
Theorem fillMissing_idempotent (opt : Options) :
  fillMissing (fillMissing opt) = fillMissing opt.
Proof.
  destruct opt as [fn pn bt vn vc ln lt].
  destruct pn, vn, ln, bt, lt; reflexivity.
Qed.

(** X21: whatever options [New] is given, the overlay it makes has a
    package name, a variable name, a list file name and both build tags,
    and [Options] hands the generator a package name, a variable name and
    a build tag that are not empty. *)
Theorem New_options_complete (d : string) (opt : Options) :
  PackageName (options (New d opt)) <> ""
  /\ VariableName (options (New d opt)) <> ""
  /\ ListFileName (options (New d opt)) <> ""
  /\ VfsgenBuildTags (options (New d opt)) <> ""
  /\ ListFileBuildTags (options (New d opt)) <> ""
  /\ vfsgen_PackageName (FilterDir_Options (New d opt)) <> ""
  /\ vfsgen_VariableName (FilterDir_Options (New d opt)) <> ""
  /\ vfsgen_BuildTags (FilterDir_Options (New d opt)) <> "".
Proof.
  destruct opt as [fn pn bt vn vc ln lt].
  destruct pn, vn, ln, bt, lt; repeat split; done.
Qed.

(** ** Saving the list *)

Section SaveListProps.
Variable fault : nat -> option (error * nat).
Variable escape : string -> string.

Lemma app_nil_r_s (a : string) : a +:+ "" = a.
Proof. induction a as [|x a IH]; [done | by rewrite app_cons_s, IH]. Qed.

Lemma concat_str_app (a b : list string) :
  concat_str (a ++ b) = concat_str a +:+ concat_str b.
Proof.
  induction a as [|x a IH]; [done|]. simpl. unfold concat_str in *. simpl.
  by rewrite IH, app_assoc_s.
Qed.

Lemma is_prefix_app_r (w a b : string) : is_prefix w a -> is_prefix w (a +:+ b).
Proof. intros [rest ->]. exists (rest +:+ b). by rewrite app_assoc_s. Qed.

Lemma is_prefix_app_l (w a b : string) : is_prefix w b -> is_prefix (a +:+ w) (a +:+ b).
Proof. intros [rest ->]. exists rest. by rewrite app_assoc_s. Qed.

Lemma substring_is_prefix (n : nat) (s : string) : is_prefix (String.substring 0 n s) s.
Proof.
  revert n. induction s as [|c s IH]; intros [|n]; simpl.
  - by exists "".
  - by exists "".
  - by exists (String c s).
  - destruct (IH n) as [rest E]. exists rest. by rewrite app_cons_s, <- E.
Qed.

Lemma extends_content lf d d' w : extends lf d d' w -> content lf d' = content lf d +:+ w.
Proof. intros (H & _). unfold content at 1. by rewrite H. Qed.

Lemma extends_trans lf d d1 d2 w1 w2 :
  extends lf d d1 w1 -> extends lf d1 d2 w2 -> extends lf d d2 (w1 +:+ w2).
Proof.
  intros H1 (H2 & Hc2 & Ho2). pose proof (extends_content _ _ _ _ H1) as E.
  destruct H1 as (_ & Hc1 & Ho1). split; [by rewrite H2, E, app_assoc_s|].
  split; [by rewrite Hc2|]. intros other Hne. by rewrite Ho2, Ho1.
Qed.

Lemma file_Write_spec (lf chunk : string) (d : disk) :
  exists w,
    extends lf d (snd (file_Write fault lf chunk d)) w
    /\ is_prefix w chunk
    /\ (fst (file_Write fault lf chunk d) = None -> w = chunk)
    /\ (fault (clock d) = None -> fst (file_Write fault lf chunk d) = None)
    /\ clock (snd (file_Write fault lf chunk d)) = S (clock d).
Proof.
  unfold file_Write, extends. fold (content lf d).
  destruct (fault (clock d)) as [[err n]|]; simpl.
  - exists (String.substring 0 n chunk). rewrite lookup_insert_eq.
    split; [|split; [apply substring_is_prefix|done]].
    split; [done|]. split; [done|]. intros other Hne. by rewrite lookup_insert_ne.
  - exists chunk. rewrite lookup_insert_eq.
    split; [|split; [by exists ""; rewrite app_nil_r_s|done]].
    split; [done|]. split; [done|]. intros other Hne. by rewrite lookup_insert_ne.
Qed.

Lemma ExecuteTemplate_spec (lf : string) (nodes : list string) (d : disk) :
  nodes <> [] ->
  exists w,
    extends lf d (snd (ExecuteTemplate fault lf nodes d)) w
    /\ is_prefix w (concat_str nodes)
    /\ (fst (ExecuteTemplate fault lf nodes d) = None -> w = concat_str nodes)
    /\ (sound_from fault (clock d) -> fst (ExecuteTemplate fault lf nodes d) = None)
    /\ clock d <= clock (snd (ExecuteTemplate fault lf nodes d)).
Proof.
  revert d. induction nodes as [|chunk nodes IH]; intros d Hne; [done|]. simpl.
  destruct (file_Write_spec lf chunk d) as (w1 & He1 & Hp1 & Hok1 & Hs1 & Hk1).
  destruct (file_Write fault lf chunk d) as [[err|] d1]; cbn [fst snd] in *.
  - exists w1. split; [done|]. split; [by apply is_prefix_app_r|].
    split; [done|]. split; [|lia]. intros Hs. discriminate Hs1. apply Hs. lia.
  - rewrite (Hok1 eq_refl) in He1. destruct nodes as [|c2 nodes].
    + exists chunk. simpl. rewrite app_nil_r_s.
      split; [done|]. split; [by exists ""; rewrite app_nil_r_s|].
      split; [done|]. split; [done|lia].
    + destruct (IH d1) as (w2 & He2 & Hp2 & Hok2 & Hs2 & Hk2); [done|].
      exists (chunk +:+ w2). split; [by eapply extends_trans|].
      split; [by apply is_prefix_app_l|].
      split; [intros E; by rewrite (Hok2 E)|]. split; [|lia].
      intros Hs. apply Hs2. intros n Hn. apply Hs. lia.
Qed.

Lemma Files_nonempty l : Files escape l <> [].
Proof. done. Qed.

Lemma saveList_loop_spec (lf : string) (list : list string) (d : disk) :
  is_Some (files d !! lf) ->
  exists w,
    extends lf d (snd (saveList_loop fault escape lf list d)) w
    /\ is_prefix w (concat_str (flat_map (Files escape) list))
    /\ (fst (saveList_loop fault escape lf list d) = None
        -> w = concat_str (flat_map (Files escape) list))
    /\ (sound_from fault (clock d) -> fst (saveList_loop fault escape lf list d) = None)
    /\ clock d <= clock (snd (saveList_loop fault escape lf list d)).
Proof.
  revert d. induction list as [|l list IH]; intros d [c Hc].
  - exists "". simpl. split; [|split; [by exists ""|done]].
    split; [|done]. unfold content. rewrite Hc. simpl. by rewrite app_nil_r_s.
  - change (flat_map (Files escape) (l :: list))
      with (Files escape l ++ flat_map (Files escape) list).
    rewrite concat_str_app. cbn [saveList_loop].
    destruct (ExecuteTemplate_spec lf (Files escape l) d (Files_nonempty l))
      as (w1 & He1 & Hp1 & Hok1 & Hs1 & Hk1).
    destruct (ExecuteTemplate fault lf (Files escape l) d) as [[err|] d1];
      cbn [fst snd] in *.
    + exists w1. split; [done|]. split; [by apply is_prefix_app_r|].
      split; [done|]. split; [|lia]. intros Hs. by discriminate (Hs1 Hs).
    + rewrite (Hok1 eq_refl) in He1.
      destruct (IH d1) as (w2 & He2 & Hp2 & Hok2 & Hs2 & Hk2).
      { destruct He1 as (-> & _). eauto. }
      exists (concat_str (Files escape l) +:+ w2). split; [by eapply extends_trans|].
      split; [by apply is_prefix_app_l|].
      split; [intros E; by rewrite (Hok2 E)|]. split; [|lia].
      intros Hs. apply Hs2. intros n Hn. apply Hs. lia.
Qed.

(** What [saveList] leaves on the disk once the file is created. *)
Lemma saveList_created (f : FilterDir) (list : list string) (d : disk) :
  fault (clock d) = None ->
  snd (fst (saveList fault escape f list d)) = set_IncludeList list f
  /\ closed (snd (saveList fault escape f list d)) = ListFileName (options f) :: closed d
  /\ (forall other, other <> ListFileName (options f) ->
        files (snd (saveList fault escape f list d)) !! other = files d !! other)
  /\ (sound_from fault (clock d) -> fst (fst (saveList fault escape f list d)) = None)
  /\ exists w,
       files (snd (saveList fault escape f list d)) !! ListFileName (options f) = Some w
       /\ is_prefix w (list_file escape (options f) list)
       /\ (fst (fst (saveList fault escape f list d)) = None
           -> w = list_file escape (options f) list).
Proof.
  intros Hok. unfold saveList, os_Create. cbn [options set_IncludeList]. rewrite Hok.
  set (lf := ListFileName (options f)).
  set (d0 := mkDisk (<[lf := ""]> (files d)) (S (clock d)) (closed d)).
  assert (content lf d0 = "") as H0 by (unfold content, d0; simpl; by rewrite lookup_insert_eq).
  assert (forall other, other <> lf -> files d0 !! other = files d !! other) as Hot0
    by (intros other Hne; unfold d0; simpl; by rewrite lookup_insert_ne).
  assert (closed d0 = closed d) as Hcl0 by done.
  assert (clock d0 = S (clock d)) as Hk0 by done.
  clearbody d0.
  unfold list_file. rewrite !concat_str_app.
  destruct (ExecuteTemplate_spec lf (Header escape (options f)) d0)
    as (w1 & He1 & Hp1 & Hok1 & Hs1 & Hk1); [done|].
  set (head := concat_str (Header escape (options f))) in *.
  set (body := concat_str (flat_map (Files escape) list)) in *.
  destruct (ExecuteTemplate fault lf (Header escape (options f)) d0) as [[err|] d1];
    cbn [fst snd] in *.
  { destruct He1 as (Hf1 & Hcl1 & Hot1). rewrite H0, app_nil_s in Hf1.
    split; [done|]. split; [by rewrite <- Hcl0, <- Hcl1|].
    split; [intros other Hne; by rewrite Hot1, Hot0|].
    split. { intros Hs. discriminate Hs1. intros n Hn. apply Hs. lia. }
    exists w1. split; [exact Hf1|]. split; [by apply is_prefix_app_r|done]. }
  rewrite (Hok1 eq_refl) in He1.
  destruct (saveList_loop_spec lf list d1) as (w2 & He2 & Hp2 & Hok2 & Hs2 & Hk2).
  { destruct He1 as (-> & _). eauto. }
  fold body in Hp2, Hok2.
  pose proof (extends_trans _ _ _ _ _ _ He1 He2) as He12.
  destruct (saveList_loop fault escape lf list d1) as [[err|] d2]; cbn [fst snd] in *.
  { destruct He12 as (Hf2 & Hcl2 & Hot2). rewrite H0, app_nil_s in Hf2.
    split; [done|]. split; [by rewrite <- Hcl0, <- Hcl2|].
    split; [intros other Hne; by rewrite Hot2, Hot0|].
    split. { intros Hs. discriminate Hs2. intros n Hn. apply Hs. lia. }
    exists (head +:+ w2). split; [exact Hf2|].
    split; [|done]. by apply is_prefix_app_l, is_prefix_app_r. }
  rewrite (Hok2 eq_refl) in He12.
  destruct (ExecuteTemplate_spec lf Footer d2) as (w3 & He3 & Hp3 & Hok3 & Hs3 & Hk3); [done|].
  set (foot := concat_str Footer) in *.
  assert (is_prefix (head +:+ body +:+ w3) (head +:+ body +:+ foot))
    as Hpre by (by do 2 apply is_prefix_app_l).
  pose proof (extends_trans _ _ _ _ _ _ He12 He3) as He.
  destruct He as (Hf3 & Hcl3 & Hot3). rewrite H0, app_nil_s, app_assoc_s in Hf3.
  destruct (ExecuteTemplate fault lf Footer d2) as [[err|] d3]; cbn [fst snd] in *.
  - split; [done|]. split; [by rewrite <- Hcl0, <- Hcl3|].
    split; [intros other Hne; by rewrite Hot3, Hot0|].
    split. { intros Hs. discriminate Hs3. intros n Hn. apply Hs. lia. }
    exists (head +:+ body +:+ w3). split; [exact Hf3|]. split; [done|done].
  - split; [done|]. split; [by rewrite <- Hcl0, <- Hcl3|].
    split; [intros other Hne; by rewrite Hot3, Hot0|]. split; [done|].
    exists (head +:+ body +:+ w3). split; [exact Hf3|]. split; [done|].
    intros _. by rewrite (Hok3 eq_refl).
Qed.

End SaveListProps.

(** X22: when the list file cannot be created, [saveList] returns the
    error of [os.Create], leaves every file as it was and closes nothing,
    and it has replaced [IncludeList] by the list all the same. *)
Theorem saveList_create_fails
    (fault : nat -> option (error * nat)) (escape : string -> string)
    (f : FilterDir) (list : list string) (d : disk) (err : error) (n : nat) :
  fault (clock d) = Some (err, n) ->
  fst (fst (saveList fault escape f list d)) = Some err
  /\ IncludeList (snd (fst (saveList fault escape f list d))) = list
  /\ files (snd (saveList fault escape f list d)) = files d
  /\ closed (snd (saveList fault escape f list d)) = closed d.
Proof. intros Hf. unfold saveList, os_Create. cbn [options set_IncludeList]. by rewrite Hf. Qed.

Lemma saveList_create_fails_witness :
  (fun k : nat => if Nat.eqb k 0 then Some (ErrPermission, 0) else None)
    (clock (mkDisk ∅ 0 [])) = Some (ErrPermission, 0)
  /\ fst (fst (saveList (fun k : nat => if Nat.eqb k 0 then Some (ErrPermission, 0) else None)
                        (fun s => s) (New "gui" (mkOptions "" "" "" "" "" "" ""))
                        ["/css/app.css"] (mkDisk ∅ 0 []))) = Some ErrPermission
  /\ IncludeList
       (snd (fst (saveList (fun k : nat => if Nat.eqb k 0 then Some (ErrPermission, 0) else None)
                           (fun s => s) (New "gui" (mkOptions "" "" "" "" "" "" ""))
                           ["/css/app.css"] (mkDisk ∅ 0 [])))) = ["/css/app.css"].
Proof.
  split; [reflexivity|].
  destruct (saveList_create_fails
              (fun k : nat => if Nat.eqb k 0 then Some (ErrPermission, 0) else None)
              (fun s => s) (New "gui" (mkOptions "" "" "" "" "" "" ""))
              ["/css/app.css"] (mkDisk ∅ 0 []) ErrPermission 0 eq_refl) as (H1 & H2 & _).
  split; [exact H1|exact H2].
Defined.

(** X23: on a disk where nothing fails, [saveList] returns no error and
    the list file holds exactly the header, one line for each path of the
    list in the order of the list, and the footer, whatever the file held
    before; the file is closed, no other file is touched, and
    [IncludeList] is the list. *)
Theorem saveList_writes_list_file
    (escape : string -> string) (f : FilterDir) (list : list string) (d : disk) :
  fst (fst (saveList no_fault escape f list d)) = None
  /\ files (snd (saveList no_fault escape f list d)) !! ListFileName (options f)
     = Some (list_file escape (options f) list)
  /\ closed (snd (saveList no_fault escape f list d)) = ListFileName (options f) :: closed d
  /\ (forall other, other <> ListFileName (options f) ->
        files (snd (saveList no_fault escape f list d)) !! other = files d !! other)
  /\ IncludeList (snd (fst (saveList no_fault escape f list d))) = list.
Proof.
  destruct (saveList_created no_fault escape f list d eq_refl)
    as (Hf & Hcl & Hot & Hnil & w & Hc & _ & Hfull).
  assert (fst (fst (saveList no_fault escape f list d)) = None) as Hn
    by (by apply Hnil).
  split; [done|]. split; [by rewrite Hc, (Hfull Hn)|].
  split; [done|]. split; [done|]. by rewrite Hf.
Qed.

(** X24: a failed save never garbles the list file.  Once the file is
    created, whatever fails afterwards and wherever, what the file holds
    is a beginning of the complete list file, the file is closed on
    return, and when [saveList] returns no error the file is complete. *)
Theorem saveList_leaves_a_prefix
    (fault : nat -> option (error * nat)) (escape : string -> string)
    (f : FilterDir) (list : list string) (d : disk) :
  fault (clock d) = None ->
  exists w,
    files (snd (saveList fault escape f list d)) !! ListFileName (options f) = Some w
    /\ is_prefix w (list_file escape (options f) list)
    /\ (fst (fst (saveList fault escape f list d)) = None
        -> w = list_file escape (options f) list)
    /\ closed (snd (saveList fault escape f list d)) = ListFileName (options f) :: closed d.
Proof.
  intros Hok.
  destruct (saveList_created fault escape f list d Hok)
    as (_ & Hcl & _ & _ & w & Hc & Hp & Hfull).
  by exists w.
Qed.

Lemma saveList_leaves_a_prefix_witness :
  (fun k : nat => if Nat.eqb k 6 then Some (ErrPermission, 2) else None)
    (clock (mkDisk ∅ 0 [])) = None
  /\ exists w,
       files (snd (saveList (fun k : nat => if Nat.eqb k 6 then Some (ErrPermission, 2) else None)
                            (fun s => s) (New "gui" (mkOptions "" "" "" "" "" "" ""))
                            ["/css/app.css"] (mkDisk ∅ 0 []))) !! "assets_list.go" = Some w
       /\ is_prefix w (list_file (fun s => s)
                         (options (New "gui" (mkOptions "" "" "" "" "" "" "")))
                         ["/css/app.css"])
       /\ fst (fst (saveList (fun k : nat => if Nat.eqb k 6 then Some (ErrPermission, 2) else None)
                             (fun s => s) (New "gui" (mkOptions "" "" "" "" "" "" ""))
                             ["/css/app.css"] (mkDisk ∅ 0 []))) = Some ErrPermission.
Proof.
  split; [reflexivity|].
  destruct (saveList_leaves_a_prefix
              (fun k : nat => if Nat.eqb k 6 then Some (ErrPermission, 2) else None)
              (fun s => s) (New "gui" (mkOptions "" "" "" "" "" "" ""))
              ["/css/app.css"] (mkDisk ∅ 0 []) eq_refl) as (w & Hw & Hp & _).
  exists w. split; [exact Hw|]. split; [exact Hp|]. by vm_compute.
Defined.

(** X25: the list file of an overlay made by [New] always carries a build
    constraint: whatever options [New] was given, the complete file is the
    generated-code comment, the build line with the given tag or [dev],
    the package clause with the given name or [main], the assignment to
    the given variable or [assets], one line for each path, and the
    footer. *)
Theorem list_file_of_New
    (escape : string -> string) (d : string) (opt : Options) (list : list string) :
  list_file escape (options (New d opt)) list
  = "// Code generated by FilterDir" +:+ LF +:+ LF
    +:+ "// +build " +:+ escape (or_default (ListFileBuildTags opt) "dev") +:+ LF +:+ LF
    +:+ "package " +:+ escape (or_default (PackageName opt) "main") +:+ LF +:+ LF
    +:+ "func init() {" +:+ LF
    +:+ TAB +:+ escape (or_default (VariableName opt) "assets")
    +:+ ".IncludeList = []string{" +:+ LF
    +:+ concat_str (List.map (fun l => TAB +:+ TAB +:+ QUOTE +:+ escape l
                                       +:+ QUOTE +:+ "," +:+ LF) list)
    +:+ TAB +:+ "}" +:+ LF +:+ "}" +:+ LF.
Proof.
  assert (concat_str (flat_map (Files escape) list)
          = concat_str (List.map (fun l => TAB +:+ TAB +:+ QUOTE +:+ escape l
                                           +:+ QUOTE +:+ "," +:+ LF) list)) as Hbody.
  { induction list as [|l list IH]; [done|].
    change (flat_map (Files escape) (l :: list))
      with (Files escape l ++ flat_map (Files escape) list).
    rewrite concat_str_app, IH. unfold Files, concat_str. simpl.
    by rewrite app_nil_r_s, !app_assoc_s. }
  unfold list_file. rewrite !concat_str_app, Hbody.
  generalize (concat_str (List.map (fun l => TAB +:+ TAB +:+ QUOTE +:+ escape l
                                             +:+ QUOTE +:+ "," +:+ LF) list)).
  intros body. destruct opt as [fn pn bt vn vc ln lt].
  destruct pn, vn, ln, bt, lt;
    unfold Header, New, fillMissing, or_default, Footer, concat_str;
    simpl; rewrite ?app_nil_r_s, ?app_assoc_s; reflexivity.
Qed.

(** ** The empty include list *)

Section EmptyList.
Context `{RS : ResourceStore}.

(** X26: with an empty include list the filter shows the root and nothing
    else: a filtered [Open] of any other name fails, whatever the store
    holds, and a listing of the root shows no entry that has a name. *)
Theorem empty_IncludeList_shows_only_root (f : FilterDir) :
  FilterMode f = true ->
  loadOnce f = false ->
  IncludeList f = [] ->
  (forall name σ, name <> "/" -> exists err, fst (fst (Open f name σ)) = inr err)
  /\ (forall σ f' σ' file count r file' σ'' i,
        Open f "/" σ = (inl (Filtered file), f', σ') ->
        Readdir file count σ' = Return (r, file', σ'') ->
        i ∈ fst r -> Name i = "").
Proof.
  intros Hmode Hl Hempty.
  assert (InclusionSet f = {[ "/" ]}) as HIS
    by (unfold InclusionSet, loadOnce_Do; rewrite Hl; simpl; by rewrite Hempty).
  split.
  - intros name σ Hne. rewrite Open_filter_outside; [|done|].
    + destruct (fst (Dir_Open (dir f) name σ)); eauto.
    + by rewrite HIS, elem_of_singleton.
  - intros σ f' σ' file count r file' σ'' i HOpen HR Hi.
    destruct (Open_Filtered_inv _ _ _ _ _ _ HOpen) as (_ & _ & Hname & Hinc & _).
    assert (f' = loadOnce_Do f) as ->.
    { clear -HOpen Hmode. unfold Open in HOpen.
      destruct (Dir_Open (dir f) "/" σ) as [[h|e] σ1]; [|done].
      rewrite bool_decide_eq_false_2 in HOpen by (by rewrite Hmode).
      case_bool_decide; [|done]. by injection HOpen as _ <- _. }
    fold (InclusionSet f) in Hinc. rewrite HIS in Hinc.
    rewrite Readdir_Return in HR by (by rewrite Hname).
    injection HR as <- _ _. simpl in Hi.
    apply list_elem_of_In, filter_In in Hi as [_ Hv].
    unfold visible, full_path in Hv. rewrite Hname, Hinc in Hv.
    apply bool_decide_eq_true, elem_of_singleton in Hv. simpl in Hv.
    by injection Hv.
Qed.

End EmptyList.

Lemma empty_IncludeList_shows_only_root_witness :
  FilterMode (filtering []) = true
  /\ loadOnce (filtering []) = false
  /\ IncludeList (filtering []) = []
  /\ exists err, fst (fst (Open (RS := gui) (filtering []) "/css" [])) = inr err.
Proof.
  split; [reflexivity|]. split; [reflexivity|]. split; [reflexivity|].
  exact (proj1 (empty_IncludeList_shows_only_root (RS := gui) (filtering [])
                  eq_refl eq_refl eq_refl) "/css" [] ltac:(done)).
Defined.
